(** * translate-t2g: transcript to genomic coordinates

    A shallow embedding of [src/translate-t2g.py]:
    - [parse_cigar], the walk along a CIGAR string that maps a query
      position to a reference position ([groupby], [int], [step],
      [cigar_loop], [parse_cigar]);
    - the part of the [__main__] block that maps the query list in sorted
      order and puts the rows back in the order of the query file
      ([sorted], [mapping_loop], [make_keys], [restore], [sorted_queries]);
    - [read_file], which loads the reference file into a dictionary
      ([strip], [split], [split_line], [int_str], [read_line], [read_file]);
    - the reading of the query file and the writing of the output in
      [__main__] ([split_whitespace], [read_query], [read_queries],
      [str_int], [write_line]), and the run as a whole ([main]);
    - [check_path], over the two answers of the file system it asks for.
    Files are the lists of their lines.  Argument parsing, logging and
    [checkfile]'s look at the file system are not modelled.

    Conventions.
    - Python integers are unbounded: they are [Z].
    - A Python [str] is a [string]; a character is an [ascii], read as a code
      point below 256.  [str.isdigit], [str.isspace] and [int] are modelled
      on these code points; longer code points and the interpreter's limit
      on the number of digits [int] accepts are outside the model.
    - An exception that [parse_cigar] lets escape is a value of [exn]; the
      bare [except:] clauses of [__main__] turn every exception into
      [exit(1)], which is [None] there.
    - [dict]s are [gmap]s.

    The definitions come first; the properties follow. *)

From Stdlib Require Import ZArith List String Ascii Bool Lia Permutation.
From stdpp Require Import gmap strings sorting.
Import ListNotations.

Local Open Scope string_scope.
Local Open Scope Z_scope.

(** ** Python primitives used by [parse_cigar] *)

Definition ord (c : ascii) : Z := Z.of_N (N_of_ascii c).

(** [chr.isdigit()]: the decimal digits, and the superscript digits
    U+00B2, U+00B3 and U+00B9, which are the other digit characters below
    code point 256. *)
Definition isdigit (c : ascii) : bool :=
  ((48 <=? ord c) && (ord c <=? 57))
  || (ord c =? 178) || (ord c =? 179) || (ord c =? 185).

(** The value of a decimal digit; [None] for every other character. *)
Definition digit_value (c : ascii) : option Z :=
  if (48 <=? ord c) && (ord c <=? 57) then Some (ord c - 48) else None.

Fixpoint int_from (acc : Z) (s : list ascii) : option Z :=
  match s with
  | [] => Some acc
  | c :: s' =>
      match digit_value c with
      | Some d => int_from (10 * acc + d) s'
      | None => None
      end
  end.

(** [int(''.join(chars))] on a group of [groupby]: such a group holds no
    white space, sign or underscore between digits unless it holds no digit at
    all, so the call succeeds exactly on a non-empty run of decimal digits.
    [None] is Python's [ValueError]. *)
Definition int (s : list ascii) : option Z :=
  match s with
  | [] => None
  | _ :: _ => int_from 0 s
  end.

(** [itertools.groupby(iterable, key)]: the maximal runs of consecutive
    elements with the same key, each with its key.  The loop of [parse_cigar]
    reads every group it takes either whole or one element deep and then
    moves on, so the lazy iterator is the list of its groups. *)
Fixpoint groupby {A : Type} (key : A -> bool) (l : list A)
  : list (bool * list A) :=
  match l with
  | [] => []
  | x :: l' =>
      match groupby key l' with
      | (k, g) :: gs =>
          if Bool.eqb (key x) k then (k, x :: g) :: gs
          else (key x, [x]) :: (k, g) :: gs
      | [] => [(key x, [x])]
      end
  end.

(** [op in t] for a tuple [t] of one-character strings. *)
Definition op_in (op : ascii) (t : list ascii) : bool :=
  existsb (Ascii.eqb op) t.

(** ** [parse_cigar] *)

(** alignment match types that consume query *)
Definition q_consume : list ascii := ["M"; "I"; "S"; "="; "X"]%char.
(** alignment match types that consume reference *)
Definition ref_consume : list ascii := ["M"; "D"; "H"; "="; "X"]%char.

Inductive exn : Type := ValueError | StopIteration.

Inductive outcome : Type :=
| Returns (v : Z)
| Raises (e : exn).

(** What one turn of the loop body does with the two counters: go on to the
    next group with new counters, or leave the function with a value. *)
Inductive flow : Type :=
| Continue (result ref_result : Z)
| Return (v : Z).

(** The body of the [for] loop after [length] and [op] have been read
    (the [if result < qpos:] statement). *)
Definition step (qpos length : Z) (op : ascii) (result ref_result : Z) : flow :=
  if result <? qpos then
    if result + length <=? qpos then
      let result' := if op_in op q_consume then result + length else result in
      let ref_result' :=
        if op_in op ref_consume then ref_result + length else ref_result in
      Continue result' ref_result'
    else
      if op_in op q_consume && op_in op ref_consume then
        let leftover := result in
        Return (ref_result + (qpos - leftover))
      else if op_in op ref_consume then
        Continue result (ref_result + length)
      else Continue result ref_result
  else Continue result ref_result.

(** The [for] loop over the groups.  Each turn takes one group for the
    length and, with [next(cig_iter_grp)], the following one for the
    operator, of which only the first character is read. *)
Fixpoint cigar_loop (groups : list (bool * list ascii))
    (qpos result ref_result : Z) : outcome :=
  match groups with
  | [] => Returns ref_result
  | (_, length_digits) :: groups' =>
      match int length_digits with
      | None => Raises ValueError
      | Some length =>
          match groups' with
          | [] => Raises StopIteration
          | (_, []) :: _ => Raises StopIteration
          | (_, op :: _) :: groups'' =>
              match step qpos length op result ref_result with
              | Continue result' ref_result' =>
                  cigar_loop groups'' qpos result' ref_result'
              | Return v => Returns v
              end
          end
      end
  end.

Definition parse_cigar (cigar : string) (qpos rpos : Z) : outcome :=
  cigar_loop (groupby isdigit (list_ascii_of_string cigar)) qpos 0 rpos.

(** ** The walk over a token sequence

    The spec's [map(tokens, query_pos, reference_start)]: the loop body of
    [parse_cigar] run over (length, operator) pairs that are already read. *)

Definition token : Type := Z * ascii.

Fixpoint walk (tokens : list token) (qpos result ref_result : Z) : Z :=
  match tokens with
  | [] => ref_result
  | (length, op) :: tokens' =>
      match step qpos length op result ref_result with
      | Continue result' ref_result' => walk tokens' qpos result' ref_result'
      | Return v => v
      end
  end.

Definition map_tokens (tokens : list token) (qpos rpos : Z) : Z :=
  walk tokens qpos 0 rpos.

(** The values [ref_result] takes, one per token walked (the value returned
    for the token that ends the walk early). *)
Fixpoint ref_trace (tokens : list token) (qpos result ref_result : Z)
  : list Z :=
  match tokens with
  | [] => []
  | (length, op) :: tokens' =>
      match step qpos length op result ref_result with
      | Continue result' ref_result' =>
          ref_result' :: ref_trace tokens' qpos result' ref_result'
      | Return v => [v]
      end
  end.

(** The tokens the loop header reads from the groups when nothing stops it
    before the last group. *)
Fixpoint read_tokens (groups : list (bool * list ascii))
  : exn + list token :=
  match groups with
  | [] => inr []
  | (_, length_digits) :: groups' =>
      match int length_digits with
      | None => inl ValueError
      | Some length =>
          match groups' with
          | [] => inl StopIteration
          | (_, []) :: _ => inl StopIteration
          | (_, op :: _) :: groups'' =>
              match read_tokens groups'' with
              | inr tokens => inr ((length, op) :: tokens)
              | inl e => inl e
              end
          end
      end
  end.

Definition tokenize (cigar : string) : exn + list token :=
  read_tokens (groupby isdigit (list_ascii_of_string cigar)).

(** ** The query batch of [__main__] *)

(** A line of the query file after [split] and [int]: [[tr, tpos]]. *)
Definition query : Type := string * Z.
(** A value of the dictionary [d] of [read_file]: [[chrname, rpos, cigar]]. *)
Definition alignment : Type := string * Z * string.
(** A row appended to [queries]: [[tr, tpos, chrname, mapped_pos]]. *)
Definition row : Type := string * Z * string * Z.

(** [sorted(iterable, key=key)], with [lt] for [<] on the keys.  Python's sort
    is stable, and a stable sort has one result: the one of this insertion
    sort, which puts an element in front of the first later element whose key
    is not less than its own. *)
Section Sorted.
Context {A K : Type} (key : A -> K) (lt : K -> K -> bool).

Fixpoint insert_sorted (x : A) (l : list A) : list A :=
  match l with
  | [] => [x]
  | y :: l' =>
      if lt (key y) (key x) then y :: insert_sorted x l' else x :: y :: l'
  end.

Fixpoint sorted (l : list A) : list A :=
  match l with
  | [] => []
  | x :: l' => insert_sorted x (sorted l')
  end.
End Sorted.

(** [<] on tuples [(str, int)]: the first components decide unless they are
    equal; strings compare by code point. *)
Definition tuple_lt (a b : string * Z) : bool :=
  String.ltb (fst a) (fst b) || (String.eqb (fst a) (fst b) && (snd a <? snd b)).

(** One turn of the mapping loop: [d.get(tr)] unpacked, then [parse_cigar].
    [None] is any exception: unpacking [None] for a transcript absent from
    [d], or what [parse_cigar] raises. *)
Definition map_query (d : gmap string alignment) (q : query) : option row :=
  let '(tr, tpos) := q in
  match d !! tr with
  | None => None
  | Some (chrname, rpos, cigar) =>
      match parse_cigar cigar tpos rpos with
      | Returns mapped_pos => Some (tr, tpos, chrname, mapped_pos)
      | Raises _ => None
      end
  end.

(** The loop [for tr, tpos in ...: queries.append(...)] over the queries in
    the given order; [None] when a turn raises ([exit(1)]). *)
Fixpoint mapping_loop (d : gmap string alignment) (order : list query)
  : option (list row) :=
  match order with
  | [] => Some []
  | q :: order' =>
      match map_query d q with
      | None => None
      | Some x =>
          match mapping_loop d order' with
          | None => None
          | Some queries => Some (x :: queries)
          end
      end
  end.

(** [enumerate(l)] *)
Definition enumerate {A : Type} (l : list A) : list (nat * A) :=
  combine (seq 0 (List.length l)) l.

(** [{tuple(e): i for i, e in enumerate(tr_list)}]: a later line overwrites
    the index of an equal earlier one. *)
Definition make_keys (tr_list : list query) : gmap query nat :=
  fold_left (fun keys ie => <[snd ie := fst ie]> keys) (enumerate tr_list) ∅.

(** [tuple(x[:2])] *)
Definition row_key (x : row) : query :=
  let '(tr, tpos, _, _) := x in (tr, tpos).

(** [sorted(queries, key=lambda x: keys.get(tuple(x[:2])))].  A list of fewer
    than two rows is returned without any comparison; otherwise every key
    is compared, and a key that is [None] raises [TypeError]. *)
Definition restore (tr_list : list query) (queries : list row)
  : option (list row) :=
  let keys := make_keys tr_list in
  match queries with
  | [] | [_] => Some queries
  | _ =>
      match mapM (fun x => option_map (fun k => (k, x)) (keys !! row_key x))
                 queries with
      | None => None
      | Some keyed => Some (map snd (sorted fst Nat.ltb keyed))
      end
  end.

(** The rows [__main__] writes, one per line of the output file, for the
    reference dictionary [d] and the query list [tr_list]; [None] when the
    run ends in [exit(1)]. *)
Definition sorted_queries (d : gmap string alignment) (tr_list : list query)
  : option (list row) :=
  match mapping_loop d (sorted (fun i => (fst i, snd i)) tuple_lt tr_list) with
  | None => None
  | Some queries => restore tr_list queries
  end.

(** ** A line of the reference file in [read_file] *)

(** [c.isspace()] on code points below 256. *)
Definition isspace (c : ascii) : bool :=
  ((9 <=? ord c) && (ord c <=? 13)) || ((28 <=? ord c) && (ord c <=? 32))
  || (ord c =? 133) || (ord c =? 160).

Fixpoint lstrip (s : list ascii) : list ascii :=
  match s with
  | [] => []
  | c :: s' => if isspace c then lstrip s' else s
  end.

Definition rstrip (s : list ascii) : list ascii := rev (lstrip (rev s)).

(** [s.strip()] *)
Definition strip (s : list ascii) : list ascii := rstrip (lstrip s).

(** The text before and after the first [sep], when there is one. *)
Fixpoint cut (sep : ascii) (s : list ascii)
  : option (list ascii * list ascii) :=
  match s with
  | [] => None
  | c :: s' =>
      if Ascii.eqb c sep then Some ([], s')
      else match cut sep s' with
           | Some (a, b) => Some (c :: a, b)
           | None => None
           end
  end.

(** [s.split(sep, maxsplit)] for a separator of one character. *)
Fixpoint split (sep : ascii) (maxsplit : nat) (s : list ascii)
  : list (list ascii) :=
  match maxsplit with
  | O => [s]
  | S n =>
      match cut sep s with
      | Some (a, b) => a :: split sep n b
      | None => [s]
      end
  end.

(** [tr, chrname, rpos, cigar = line.strip().split('\t', 3)] of [read_file]:
    the four fields, [rpos] still as text; [None] is the [ValueError] of an
    unpacking that does not get four values. *)
Definition split_line (line : string)
  : option (string * string * string * string) :=
  match split "009"%char 3 (strip (list_ascii_of_string line)) with
  | [tr; chrname; rpos; cigar] =>
      Some (string_of_list_ascii tr, string_of_list_ascii chrname,
            string_of_list_ascii rpos, string_of_list_ascii cigar)
  | _ => None
  end.

(** ** Definitions used in the statements *)

(** A token that can stop the walk inside a query-only operation: one that
    consumes query only and is longer than one base. *)
Definition query_only_long (t : token) : bool :=
  op_in (snd t) q_consume && negb (op_in (snd t) ref_consume) && (1 <? fst t).

(** The order of the keys, on the elements. *)
Definition key_le {A : Type} (key : A -> nat) (a b : A) : Prop :=
  (key a <= key b)%nat.

(** The row of a query, for the statements below; the empty row stands for a
    query the loop cannot map and is never written. *)
Definition row_of (d : gmap string alignment) (q : query) : row :=
  default (fst q, snd q, "", 0) (map_query d q).

(** The index [keys] holds for a query. *)
Definition index_of (tr_list : list query) (q : query) : nat :=
  default 0%nat (make_keys tr_list !! q).

(** A query file with a repeated line, and a reference for it. *)
Definition d_dup : gmap string alignment :=
  <["A" := ("chr1", 100, "8M")]> (<["B" := ("chr2", 7, "5M")]> ∅).

Definition tr_dup : list query := [("A", 1); ("B", 2); ("A", 1)].

(** A group that is a non-empty run of one key. *)
Definition is_run {A : Type} (key : A -> bool) (kg : bool * list A) : Prop :=
  snd kg <> [] /\ Forall (fun x => key x = fst kg) (snd kg).

(** Neighbouring groups have different keys. *)
Fixpoint alternating {A : Type} (gs : list (bool * list A)) : Prop :=
  match gs with
  | (k1, _) :: gs' =>
      match gs' with
      | (k2, _) :: _ => k1 <> k2 /\ alternating gs'
      | [] => True
      end
  | [] => True
  end.

(** The character of a decimal digit. *)
Definition digit_char (d : Z) : ascii := ascii_of_N (Z.to_N (48 + d)).

(** The decimal numeral of a number that is not negative, most significant
    digit first; [fuel] bounds the number of digits after the first. *)
Fixpoint numeral (fuel : nat) (n : Z) : list ascii :=
  match fuel with
  | O => [digit_char n]
  | S fuel' =>
      if n <? 10 then [digit_char n]
      else (numeral fuel' (n / 10) ++ [digit_char (n mod 10)])%list
  end.

(** A CIGAR string for a token sequence. *)
Fixpoint cigar_of (tokens : list token) : list ascii :=
  match tokens with
  | [] => []
  | (length, op) :: tokens' =>
      (numeral (Z.to_nat length) length ++ op :: cigar_of tokens')%list
  end.

(** ** [int], [str] and [str.split] on any string *)

(** The white space [int(s)] skips around the number: [str.isspace] without
    the four separators U+001C to U+001F. *)
Definition int_space (c : ascii) : bool :=
  ((9 <=? ord c) && (ord c <=? 13)) || (ord c =? 32)
  || (ord c =? 133) || (ord c =? 160).

Fixpoint lskip (p : ascii -> bool) (s : list ascii) : list ascii :=
  match s with
  | [] => []
  | c :: s' => if p c then lskip p s' else s
  end.

(** The digits after the first one, with single underscores between digits;
    the value read and the text left. *)
Fixpoint int_digits (acc : Z) (s : list ascii) : Z * list ascii :=
  match s with
  | [] => (acc, [])
  | c :: s' =>
      match digit_value c with
      | Some d => int_digits (10 * acc + d) s'
      | None =>
          if Ascii.eqb c "_" then
            match s' with
            | c' :: s'' =>
                match digit_value c' with
                | Some d => int_digits (10 * acc + d) s''
                | None => (acc, s)
                end
            | [] => (acc, s)
            end
          else (acc, s)
      end
  end.

(** The number after the sign: at least one digit, then white space to the
    end. *)
Definition int_unsigned (s : list ascii) : option Z :=
  match s with
  | c :: r =>
      match digit_value c with
      | Some d =>
          let read := int_digits d r in
          if forallb int_space (snd read) then Some (fst read) else None
      | None => None
      end
  | [] => None
  end.

(** [int(s)] for a string [s]: white space, an optional sign, decimal digits
    with single underscores between them, white space.  [None] is
    [ValueError]. *)
Definition int_str (s : list ascii) : option Z :=
  match lskip int_space s with
  | c :: r =>
      if Ascii.eqb c "-" then option_map Z.opp (int_unsigned r)
      else if Ascii.eqb c "+" then int_unsigned r
      else int_unsigned (c :: r)
  | [] => None
  end.

(** [str(n)] for an integer [n]. *)
Definition str_int (n : Z) : list ascii :=
  if n <? 0 then "-"%char :: numeral (Z.to_nat (- n)) (- n)
  else numeral (Z.to_nat n) n.

(** The words of [s.split()]: [cur] holds the word being read, last
    character first. *)
Fixpoint words (cur : list ascii) (s : list ascii) : list (list ascii) :=
  match s with
  | [] => match cur with [] => [] | _ :: _ => [rev cur] end
  | c :: s' =>
      if isspace c then
        match cur with
        | [] => words [] s'
        | _ :: _ => rev cur :: words [] s'
        end
      else words (c :: cur) s'
  end.

(** [s.split()]: the maximal runs without white space. *)
Definition split_whitespace (s : list ascii) : list (list ascii) := words [] s.

(** [sep.join(parts)] *)
Fixpoint join (sep : list ascii) (parts : list (list ascii)) : list ascii :=
  match parts with
  | [] => []
  | [p] => p
  | p :: ps => (p ++ sep ++ join sep ps)%list
  end.

(** ** [check_path] *)

Section FileSystem.
(** [os.path.isdir(path)], and whether [os.mkdir(path)] succeeds. *)
Variables (isdir mkdir : string -> bool).

(** [check_path(path)]: [None] when the run ends there, by [exit(1)] or by
    the [IndexError] of [path[-1]] on the empty string. *)
Definition check_path (path : string) : option string :=
  if negb (isdir path) && negb (mkdir path) then None
  else
    match rev (list_ascii_of_string path) with
    | [] => None
    | c :: _ => if Ascii.eqb c "/" then Some path else Some (path ++ "/")%string
    end.
End FileSystem.

(** ** [read_file] *)

(** One turn of the loop of [read_file]: the key and the value stored for a
    line; [None] is the [ValueError] of the unpacking or of [int(rpos)]. *)
Definition read_line (line : string) : option (string * alignment) :=
  match split_line line with
  | Some (tr, chrname, rpos, cigar) =>
      match int_str (list_ascii_of_string rpos) with
      | Some n => Some (tr, (chrname, n, cigar))
      | None => None
      end
  | None => None
  end.

(** The loop of [read_file] from the dictionary [d]: [d[tr] = tr_map_vals]
    for every line in turn. *)
Fixpoint read_lines (d : gmap string alignment) (lines : list string)
  : option (gmap string alignment) :=
  match lines with
  | [] => Some d
  | line :: lines' =>
      match read_line line with
      | Some (tr, tr_map_vals) => read_lines (<[tr := tr_map_vals]> d) lines'
      | None => None
      end
  end.

(** [read_file(filename)] on the lines of the file. *)
Definition read_file (lines : list string) : option (gmap string alignment) :=
  read_lines ∅ lines.

(** ** The rest of [__main__] *)

(** An element of [tr_list] after the conversion loop: the first field, the
    second as an integer, and the fields after it. *)
Definition entry : Type := string * Z * list string.

(** [line.rstrip().split()] with [tr_list[i][1] = int(tr_list[i][1])];
    [None] is the [IndexError] of a line with fewer than two fields or the
    [ValueError] of [int]. *)
Definition read_query (line : string) : option entry :=
  match split_whitespace (rstrip (list_ascii_of_string line)) with
  | tr :: tpos :: fields =>
      match int_str tpos with
      | Some n =>
          Some (string_of_list_ascii tr, n, map string_of_list_ascii fields)
      | None => None
      end
  | _ => None
  end.

(** [for tr, tpos in ...]: the unpacking raises for a line with more than two
    fields. *)
Definition unpack_query (e : entry) : option query :=
  match e with
  | (tr, tpos, []) => Some (tr, tpos)
  | (_, _, _ :: _) => None
  end.

(** The query list as the mapping loop can take it: the elements of
    [tr_list], each unpacked into [tr, tpos]. *)
Definition read_queries (query_lines : list string) : option (list query) :=
  match mapM read_query query_lines with
  | None => None
  | Some elements => mapM unpack_query elements
  end.

(** ['\t'.join(map(str, query)) + '\n'] *)
Definition write_line (x : row) : string :=
  let '(tr, tpos, chrname, mapped_pos) := x in
  string_of_list_ascii
    (join ["009"%char]
       [list_ascii_of_string tr; str_int tpos;
        list_ascii_of_string chrname; str_int mapped_pos]
     ++ ["010"%char])%list.

(** The lines [__main__] writes to the output file, from the lines of the
    reference file and of the query file, for an output directory that
    [check_path] accepts; [None] when the run ends before it writes any.
    [checkfile] ends the run for a file without content, and a failure of
    [read_file] ends it as well (the handler's message names [filename],
    which [__main__] does not define).  The sort of the mapping loop and
    the dictionary [keys] read only the first two fields of an element, and
    the loop cannot end normally if an element has more: the run then ends
    in the turn that unpacks it or in an earlier one. *)
Definition main (ref_lines query_lines : list string) : option (list string) :=
  match ref_lines, query_lines with
  | [], _ | _, [] => None
  | _, _ =>
      match read_file ref_lines with
      | None => None
      | Some d =>
          match read_queries query_lines with
          | None => None
          | Some tr_list =>
              match sorted_queries d tr_list with
              | None => None
              | Some rows => Some (map write_line rows)
              end
          end
      end
  end.

(** ** Further definitions used in the statements *)

(** The number of query positions and of reference positions the tokens
    consume when they are walked to the end. *)
Fixpoint query_length (tokens : list token) : Z :=
  match tokens with
  | [] => 0
  | (length, op) :: tokens' =>
      (if op_in op q_consume then length else 0) + query_length tokens'
  end.

Fixpoint reference_length (tokens : list token) : Z :=
  match tokens with
  | [] => 0
  | (length, op) :: tokens' =>
      (if op_in op ref_consume then length else 0) + reference_length tokens'
  end.

(** How the walk over the tokens ends: [Return v] when a turn returns [v],
    [Continue] with the last counters when the tokens run out. *)
Fixpoint walk_flow (tokens : list token) (qpos result ref_result : Z) : flow :=
  match tokens with
  | [] => Continue result ref_result
  | (length, op) :: tokens' =>
      match step qpos length op result ref_result with
      | Continue result' ref_result' =>
          walk_flow tokens' qpos result' ref_result'
      | Return v => Return v
      end
  end.

(** [extended gs gs']: [gs'] has the groups of [gs], the last of them
    possibly longer, and possibly more groups after it. *)
Inductive extended {A : Type}
  : list (bool * list A) -> list (bool * list A) -> Prop :=
| extended_last k g x rest : extended [(k, g)] ((k, (g ++ x)%list) :: rest)
| extended_cons a gs gs' : extended gs gs' -> extended (a :: gs) (a :: gs').

(** A reference file of two lines and a query file of two lines, for the
    instances below. *)
Definition ref_ex : list string :=
  ["A" ++ String "009" ("chr1" ++ String "009" ("100" ++ String "009"
     ("8M" ++ String "010" "")));
   "B" ++ String "009" ("chr2" ++ String "009" ("7" ++ String "009"
     ("5M" ++ String "010" "")))]%string.

Definition query_ex : list string :=
  ["B 2" ++ String "010" ""; "A 1" ++ String "010" ""]%string.

Definition out_ex : list string :=
  ["B" ++ String "009" ("2" ++ String "009" ("chr2" ++ String "009"
     ("9" ++ String "010" "")));
   "A" ++ String "009" ("1" ++ String "009" ("chr1" ++ String "009"
     ("101" ++ String "010" "")))]%string.

(** * Properties of the walk *)

(** ** The loop body *)

Lemma step_frozen qpos length op result ref_result :
  qpos <= result ->
  step qpos length op result ref_result = Continue result ref_result.
Proof.
  intros Hge. unfold step.
  destruct (Z.ltb_spec result qpos) as [Hlt | _]; [lia | reflexivity].
Qed.

Lemma step_zero_length qpos op result ref_result :
  step qpos 0 op result ref_result = Continue result ref_result.
Proof.
  unfold step. rewrite !Z.add_0_r.
  destruct (Z.ltb_spec result qpos) as [Hlt | _]; [| reflexivity].
  destruct (Z.leb_spec result qpos) as [_ | Hgt]; [| lia].
  cbn zeta. destruct (op_in op q_consume), (op_in op ref_consume); reflexivity.
Qed.

Lemma step_no_consume qpos length op result ref_result :
  op_in op q_consume = false ->
  op_in op ref_consume = false ->
  step qpos length op result ref_result = Continue result ref_result.
Proof.
  intros Hq Hr. unfold step. rewrite Hq, Hr. cbn.
  destruct (result <? qpos); [| reflexivity].
  destruct (result + length <=? qpos); reflexivity.
Qed.

(** A turn never lowers [ref_result] when the length is not negative. *)
Lemma step_ref_le qpos length op result ref_result :
  0 <= length ->
  match step qpos length op result ref_result with
  | Continue _ ref_result' => ref_result <= ref_result'
  | Return v => ref_result <= v
  end.
Proof.
  intros Hlen. unfold step.
  destruct (Z.ltb_spec result qpos) as [Hlt | _]; [| lia].
  destruct (result + length <=? qpos).
  - cbn zeta. destruct (op_in op ref_consume); lia.
  - destruct (op_in op q_consume && op_in op ref_consume); [lia |].
    destruct (op_in op ref_consume); lia.
Qed.

(** ** The walk over tokens *)

Lemma walk_frozen tokens qpos result ref_result :
  qpos <= result -> walk tokens qpos result ref_result = ref_result.
Proof.
  intros Hge. induction tokens as [| [length op] tokens IH]; [reflexivity |].
  cbn. rewrite step_frozen by exact Hge. exact IH.
Qed.

Lemma walk_ref_le tokens qpos :
  Forall (fun t : token => 0 <= fst t) tokens ->
  forall result ref_result,
    ref_result <= walk tokens qpos result ref_result.
Proof.
  induction 1 as [| [length op] tokens Hlen _ IH]; intros result ref_result.
  - cbn. lia.
  - cbn. cbn in Hlen.
    pose proof (step_ref_le qpos length op result ref_result Hlen) as Hs.
    destruct (step qpos length op result ref_result) as [result' ref' | v].
    + specialize (IH result' ref'). lia.
    + exact Hs.
Qed.

Lemma ref_trace_le tokens qpos :
  Forall (fun t : token => 0 <= fst t) tokens ->
  forall bound result ref_result,
    bound <= ref_result ->
    Forall (fun r => bound <= r) (ref_trace tokens qpos result ref_result).
Proof.
  induction 1 as [| [length op] tokens Hlen _ IH];
    intros bound result ref_result Hb; cbn.
  - constructor.
  - cbn in Hlen.
    pose proof (step_ref_le qpos length op result ref_result Hlen) as Hs.
    destruct (step qpos length op result ref_result) as [result' ref' | v].
    + constructor; [lia |]. apply IH. lia.
    + constructor; [lia | constructor].
Qed.

Lemma last_nonempty_default {A : Type} (l : list A) (x d d' : A) :
  List.last (x :: l) d = List.last (x :: l) d'.
Proof.
  revert x. induction l as [| y l IH]; intros x; [reflexivity |].
  change (List.last (y :: l) d = List.last (y :: l) d'). apply IH.
Qed.

(** The value the walk returns is the last entry of its trace. *)
Lemma walk_last_trace tokens qpos : forall result ref_result,
  walk tokens qpos result ref_result
  = List.last (ref_trace tokens qpos result ref_result) ref_result.
Proof.
  induction tokens as [| [length op] tokens IH]; intros result ref_result.
  - reflexivity.
  - cbn [walk ref_trace].
    destruct (step qpos length op result ref_result) as [result' ref' | v].
    + rewrite IH.
      destruct (ref_trace tokens qpos result' ref') as [| r rs] eqn:E.
      * reflexivity.
      * change (List.last (r :: rs) ref' = List.last (r :: rs) ref_result).
        apply last_nonempty_default.
    + reflexivity.
Qed.

(** A token that leaves both counters as they are can be dropped. *)
Lemma walk_skip qpos length op post :
  (forall result ref_result,
      step qpos length op result ref_result = Continue result ref_result) ->
  forall pre result ref_result,
    walk (pre ++ (length, op) :: post) qpos result ref_result
    = walk (pre ++ post) qpos result ref_result.
Proof.
  intros Hskip pre.
  induction pre as [| [l o] pre IH]; intros result ref_result; cbn.
  - rewrite Hskip. reflexivity.
  - destruct (step qpos l o result ref_result); [apply IH | reflexivity].
Qed.

(** ** From the groups of the string to the tokens *)

Lemma list_pair_ind {A : Type} (P : list A -> Prop) :
  P [] -> (forall a, P [a]) -> (forall a b l, P l -> P (a :: b :: l)) ->
  forall l, P l.
Proof.
  intros Hnil Hone Hstep.
  assert (Hboth : forall l, P l /\ forall a, P (a :: l)).
  { induction l as [| b l [IH1 IH2]]; split; auto. }
  intros l. apply Hboth.
Qed.

Lemma digit_value_range c d : digit_value c = Some d -> 0 <= d <= 9.
Proof.
  unfold digit_value.
  destruct (Z.leb_spec 48 (ord c)), (Z.leb_spec (ord c) 57); cbn;
    intros [= <-]; lia.
Qed.

Lemma int_from_nonneg s : forall acc v,
  0 <= acc -> int_from acc s = Some v -> 0 <= v.
Proof.
  induction s as [| c s IH]; intros acc v Hacc; cbn.
  - intros [= <-]. exact Hacc.
  - destruct (digit_value c) as [d |] eqn:Hd; [| discriminate].
    apply digit_value_range in Hd. apply IH. lia.
Qed.

Lemma int_nonneg s v : int s = Some v -> 0 <= v.
Proof.
  destruct s as [| c s]; [discriminate |].
  unfold int. apply int_from_nonneg. lia.
Qed.

(** When every group can be read, the loop of [parse_cigar] is the walk over
    the tokens read. *)
Lemma cigar_loop_read_tokens qpos groups : forall tokens,
  read_tokens groups = inr tokens ->
  forall result ref_result,
    cigar_loop groups qpos result ref_result
    = Returns (walk tokens qpos result ref_result).
Proof.
  induction groups as [| g | [k1 ds] [k2 og] groups IH] using list_pair_ind;
    intros tokens Hread result ref_result.
  - injection Hread as <-. reflexivity.
  - destruct g as [k ds]. cbn in Hread. destruct (int ds); discriminate.
  - cbn [read_tokens] in Hread. cbn [cigar_loop].
    destruct (int ds) as [length |]; [| discriminate].
    destruct og as [| op og]; [discriminate |].
    destruct (read_tokens groups) as [e | tokens']; [discriminate |].
    injection Hread as <-. cbn [walk].
    destruct (step qpos length op result ref_result); [| reflexivity].
    apply IH. reflexivity.
Qed.

Lemma cigar_loop_ref_le qpos groups : forall result ref_result v,
  cigar_loop groups qpos result ref_result = Returns v -> ref_result <= v.
Proof.
  induction groups as [| g | [k1 ds] [k2 og] groups IH] using list_pair_ind;
    intros result ref_result v Hrun.
  - injection Hrun as <-. lia.
  - destruct g as [k ds]. cbn in Hrun. destruct (int ds); discriminate.
  - cbn [cigar_loop] in Hrun.
    destruct (int ds) as [length |] eqn:Hint; [| discriminate].
    destruct og as [| op og]; [discriminate |].
    pose proof (step_ref_le qpos length op result ref_result
                  (int_nonneg _ _ Hint)) as Hs.
    destruct (step qpos length op result ref_result) as [result' ref' | w].
    + apply IH in Hrun. lia.
    + injection Hrun as <-. exact Hs.
Qed.

(** With the target already reached the loop changes nothing, but it still
    reads every group. *)
Lemma cigar_loop_frozen qpos groups : forall tokens,
  read_tokens groups = inr tokens ->
  forall result ref_result, qpos <= result ->
    cigar_loop groups qpos result ref_result = Returns ref_result.
Proof.
  intros tokens Hread result ref_result Hge.
  rewrite (cigar_loop_read_tokens qpos groups tokens Hread).
  rewrite walk_frozen by exact Hge. reflexivity.
Qed.

(** ** Monotonicity away from insertions *)

Lemma walk_monotone tokens q q' :
  q <= q' ->
  Forall (fun t : token => 0 <= fst t /\ query_only_long t = false) tokens ->
  forall result ref_result,
    walk tokens q result ref_result <= walk tokens q' result ref_result.
Proof.
  intros Hq Hall.
  assert (Hnonneg : Forall (fun t : token => 0 <= fst t) tokens).
  { eapply List.Forall_impl; [| exact Hall]. intros t [H _]. exact H. }
  induction Hall as [| [length op] tokens [Hlen Hop] Hall IH];
    intros result ref_result; [cbn; lia |].
  apply Forall_inv_tail in Hnonneg as Htail. specialize (IH Htail).
  destruct (Z.le_gt_cases q result) as [Hfrozen | Hlt].
  { rewrite (walk_frozen _ q) by exact Hfrozen. apply walk_ref_le, Hnonneg. }
  cbn [walk]. unfold step. cbn in Hlen. unfold query_only_long in Hop.
  cbn [fst snd] in Hop.
  destruct (Z.ltb_spec result q) as [_ | ?]; [| lia].
  destruct (Z.ltb_spec result q') as [_ | ?]; [| lia].
  destruct (Z.leb_spec (result + length) q) as [Hfit | Hover].
  - destruct (Z.leb_spec (result + length) q') as [_ | ?]; [| lia].
    cbn zeta. apply IH.
  - destruct (op_in op q_consume), (op_in op ref_consume); cbn [andb negb] in *.
    + destruct (Z.leb_spec (result + length) q') as [Hfit' | Hover'].
      * pose proof (walk_ref_le tokens q' Htail (result + length)
                      (ref_result + length)). lia.
      * lia.
    + destruct (Z.ltb_spec 1 length); [discriminate | lia].
    + destruct (Z.leb_spec (result + length) q'); apply IH.
    + destruct (Z.leb_spec (result + length) q'); apply IH.
Qed.

(** * Properties of the query batch *)

(** ** The index dictionary [keys] *)

Lemma fold_keys_notin (l : list query) (q : query) :
  q ∉ l ->
  forall n (m : gmap query nat),
    fold_left (fun keys ie => <[snd ie := fst ie]> keys)
      (combine (seq n (List.length l)) l) m !! q = m !! q.
Proof.
  induction l as [| x l IH]; intros Hnotin n m; [reflexivity |].
  apply not_elem_of_cons in Hnotin as [Hne Hnotin]. cbn.
  rewrite IH by exact Hnotin. cbn. apply lookup_insert_ne. congruence.
Qed.

Lemma fold_keys_lookup (l : list query) :
  NoDup l ->
  forall n (m : gmap query nat) j q,
    l !! j = Some q ->
    fold_left (fun keys ie => <[snd ie := fst ie]> keys)
      (combine (seq n (List.length l)) l) m !! q = Some (n + j)%nat.
Proof.
  induction 1 as [| x l Hx Hnodup IH]; intros n m j q Hj; [discriminate |].
  cbn. destruct j as [| j]; cbn in Hj.
  - injection Hj as ->. rewrite fold_keys_notin by exact Hx.
    cbn. rewrite lookup_insert_eq. f_equal. lia.
  - rewrite (IH (S n) _ j q Hj). f_equal. lia.
Qed.

(** Without repeated lines, [keys] gives every line its index. *)
Lemma make_keys_lookup tr_list j q :
  NoDup tr_list -> tr_list !! j = Some q -> make_keys tr_list !! q = Some j.
Proof.
  intros Hnodup Hj. unfold make_keys, enumerate.
  apply (fold_keys_lookup tr_list Hnodup 0%nat ∅ j q Hj).
Qed.

(** ** [sorted] *)

Section SortedFacts.
Context {A K : Type} (key : A -> K) (lt : K -> K -> bool).

Lemma insert_sorted_Permutation x l :
  Permutation (insert_sorted key lt x l) (x :: l).
Proof.
  induction l as [| y l IH]; cbn; [reflexivity |].
  destruct (lt (key y) (key x)); [| reflexivity].
  rewrite IH. apply perm_swap.
Qed.

Lemma sorted_Permutation l : Permutation (sorted key lt l) l.
Proof.
  induction l as [| x l IH]; cbn; [reflexivity |].
  rewrite insert_sorted_Permutation, IH. reflexivity.
Qed.

Lemma sorted_length l : List.length (sorted key lt l) = List.length l.
Proof. apply Permutation_length, sorted_Permutation. Qed.
End SortedFacts.

Section SortedNat.
Context {A : Type} (key : A -> nat).

Lemma insert_sorted_StronglySorted x l :
  StronglySorted (key_le key) l ->
  StronglySorted (key_le key) (insert_sorted key Nat.ltb x l).
Proof.
  induction 1 as [| y l Hsorted IH Hy]; cbn [insert_sorted].
  - repeat constructor.
  - destruct (Nat.ltb_spec (key y) (key x)) as [Hlt | Hge].
    + constructor; [exact IH |].
      rewrite (insert_sorted_Permutation key Nat.ltb x l).
      constructor; [unfold key_le; lia | exact Hy].
    + constructor; [constructor; assumption |].
      constructor; [exact Hge |].
      eapply List.Forall_impl; [| exact Hy].
      unfold key_le. intros z Hz. lia.
Qed.

Lemma sorted_StronglySorted l :
  StronglySorted (key_le key) (sorted key Nat.ltb l).
Proof.
  induction l as [| x l IH]; cbn; [constructor |].
  apply insert_sorted_StronglySorted, IH.
Qed.

(** A list whose keys count up from [n] is sorted. *)
Lemma counting_StronglySorted l : forall n,
  (forall j a, l !! j = Some a -> key a = (n + j)%nat) ->
  StronglySorted (key_le key) l.
Proof.
  induction l as [| x l IH]; intros n Hkeys; constructor.
  - apply (IH (S n)). intros j a Hj.
    rewrite (Hkeys (S j) a Hj). lia.
  - apply Forall_lookup. intros j a Hj. unfold key_le.
    rewrite (Hkeys 0%nat x eq_refl), (Hkeys (S j) a Hj). lia.
Qed.
End SortedNat.

(** ** The mapping loop and the restored order *)

Lemma map_query_key d q x : map_query d q = Some x -> row_key x = q.
Proof.
  destruct q as [tr tpos]. unfold map_query.
  destruct (d !! tr) as [[[chrname rpos] cigar] |]; [| discriminate].
  destruct (parse_cigar cigar tpos rpos); [| discriminate].
  intros [= <-]. reflexivity.
Qed.

Lemma mapping_loop_mapM d order :
  mapping_loop d order = mapM (map_query d) order.
Proof.
  induction order as [| q order IH]; [reflexivity |].
  cbn. rewrite IH. destruct (map_query d q); [| reflexivity].
  cbn. destruct (mapM (map_query d) order); reflexivity.
Qed.

Lemma mapping_loop_Some d order queries :
  mapping_loop d order = Some queries ->
  queries = map (row_of d) order
  /\ Forall (fun q => is_Some (map_query d q)) order.
Proof.
  revert queries. induction order as [| q order IH]; intros queries; cbn.
  - intros [= <-]. split; [reflexivity | constructor].
  - destruct (map_query d q) as [x |] eqn:Hq; [| discriminate].
    destruct (mapping_loop d order) as [rest |]; [| discriminate].
    intros [= <-]. destruct (IH rest eq_refl) as [-> Hall].
    split.
    + unfold row_of at 2. rewrite Hq. reflexivity.
    + constructor; [rewrite Hq; eexists; reflexivity | exact Hall].
Qed.

Lemma mapping_loop_total d order :
  Forall (fun q => is_Some (map_query d q)) order ->
  mapping_loop d order = Some (map (row_of d) order).
Proof.
  induction 1 as [| q order [x Hq] _ IH]; [reflexivity |].
  cbn [mapping_loop map]. rewrite Hq, IH.
  unfold row_of at 2. rewrite Hq. reflexivity.
Qed.

Lemma index_of_lookup tr_list q :
  NoDup tr_list -> q ∈ tr_list ->
  make_keys tr_list !! q = Some (index_of tr_list q)
  /\ tr_list !! index_of tr_list q = Some q.
Proof.
  intros Hnodup Hin. apply list_elem_of_lookup in Hin as [j Hj].
  unfold index_of. rewrite (make_keys_lookup tr_list j q Hnodup Hj).
  split; [reflexivity | exact Hj].
Qed.

(** What [restore] returns once every key is found, for a list of any
    length. *)
Lemma restore_keyed tr_list queries keyed :
  mapM (fun x => option_map (fun k => (k, x)) (make_keys tr_list !! row_key x))
       queries = Some keyed ->
  restore tr_list queries = Some (map snd (sorted fst Nat.ltb keyed)).
Proof.
  intros Hkeyed. unfold restore.
  destruct queries as [| x1 [| x2 queries]].
  - injection Hkeyed as <-. reflexivity.
  - cbn in Hkeyed.
    destruct (make_keys tr_list !! row_key x1); [| discriminate].
    injection Hkeyed as <-. reflexivity.
  - rewrite Hkeyed. reflexivity.
Qed.

Lemma keyed_rows d tr_list order :
  NoDup tr_list ->
  Forall (fun q => q ∈ tr_list /\ is_Some (map_query d q)) order ->
  mapM (fun x => option_map (fun k => (k, x)) (make_keys tr_list !! row_key x))
       (map (row_of d) order)
  = Some (map (fun q => (index_of tr_list q, row_of d q)) order).
Proof.
  intros Hnodup. induction 1 as [| q order [Hin [x Hq]] _ IH]; [reflexivity |].
  cbn [map mapM]. fold (mapM (fun x => option_map (fun k => (k, x))
                                 (make_keys tr_list !! row_key x))).
  rewrite IH.
  assert (Hkey : row_key (row_of d q) = q).
  { unfold row_of. rewrite Hq. cbn. eapply map_query_key, Hq. }
  rewrite Hkey.
  destruct (index_of_lookup tr_list q Hnodup Hin) as [-> _]. reflexivity.
Qed.

Lemma sorted_keyed_rows d tr_list order :
  NoDup tr_list -> Permutation order tr_list ->
  sorted fst Nat.ltb (map (fun q => (index_of tr_list q, row_of d q)) order)
  = map (fun q => (index_of tr_list q, row_of d q)) tr_list.
Proof.
  intros Hnodup Hperm.
  set (g := fun q : query => (index_of tr_list q, row_of d q)).
  apply (StronglySorted_unique_strong (key_le fst)).
  - intros x1 x2 Hx1 Hx2 Hle1 Hle2. unfold key_le in Hle1, Hle2.
    rewrite (sorted_Permutation fst Nat.ltb), Hperm in Hx1.
    apply list_elem_of_In, in_map_iff in Hx1 as [q1 [<- Hq1]].
    apply list_elem_of_In, in_map_iff in Hx2 as [q2 [<- Hq2]].
    apply list_elem_of_In in Hq1, Hq2.
    destruct (index_of_lookup tr_list q1 Hnodup Hq1) as [_ H1].
    destruct (index_of_lookup tr_list q2 Hnodup Hq2) as [_ H2].
    cbn in Hle1, Hle2.
    assert (Heq : index_of tr_list q1 = index_of tr_list q2) by lia.
    rewrite Heq in H1. congruence.
  - apply sorted_StronglySorted.
  - apply (counting_StronglySorted fst _ 0%nat). intros j a Hj.
    change (map g tr_list) with (g <$> tr_list) in Hj.
    rewrite list_lookup_fmap in Hj.
    destruct (tr_list !! j) as [q |] eqn:Hq; [| discriminate].
    injection Hj as <-. cbn.
    assert (Hin : q ∈ tr_list) by (apply list_elem_of_lookup; eauto).
    destruct (index_of_lookup tr_list q Hnodup Hin) as [_ Hidx].
    eapply NoDup_lookup; eauto.
  - rewrite (sorted_Permutation fst Nat.ltb). apply Permutation_map, Hperm.
Qed.

(** Without repeated lines in the query file, the rows come out in the order
    of the file whatever order the mapping loop took them in. *)
Lemma restore_any_order d tr_list order queries :
  NoDup tr_list -> Permutation order tr_list ->
  mapping_loop d order = Some queries ->
  restore tr_list queries = Some (map (row_of d) tr_list)
  /\ mapping_loop d tr_list = Some (map (row_of d) tr_list).
Proof.
  intros Hnodup Hperm Hloop.
  apply mapping_loop_Some in Hloop as [-> Hall].
  assert (Hin : Forall (fun q => q ∈ tr_list /\ is_Some (map_query d q)) order).
  { apply Forall_forall. intros q Hq. split.
    - rewrite <- Hperm. exact Hq.
    - rewrite Forall_forall in Hall. apply Hall, Hq. }
  split.
  - rewrite (restore_keyed _ _ _ (keyed_rows d tr_list order Hnodup Hin)).
    rewrite (sorted_keyed_rows d tr_list order Hnodup Hperm).
    rewrite map_map. reflexivity.
  - apply mapping_loop_total. rewrite <- Hperm. exact Hall.
Qed.

Lemma sorted_queries_NoDup d tr_list :
  NoDup tr_list -> sorted_queries d tr_list = mapping_loop d tr_list.
Proof.
  intros Hnodup. unfold sorted_queries.
  match goal with
  | |- context [mapping_loop d ?o] => set (order := o)
  end.
  assert (Hperm : Permutation order tr_list) by apply sorted_Permutation.
  destruct (mapping_loop d order) as [queries |] eqn:Hloop.
  - cbv beta iota.
    destruct (restore_any_order d tr_list order queries Hnodup Hperm Hloop)
      as [-> ->]. reflexivity.
  - symmetry. rewrite mapping_loop_mapM in *.
    apply mapM_None. apply mapM_None in Hloop.
    rewrite <- Hperm. exact Hloop.
Qed.

(** * Reading tokens from a string *)

Lemma parse_cigar_walk cigar tokens qpos rpos :
  tokenize cigar = inr tokens ->
  parse_cigar cigar qpos rpos = Returns (map_tokens tokens qpos rpos).
Proof.
  intros Hread. unfold parse_cigar, map_tokens.
  apply cigar_loop_read_tokens. exact Hread.
Qed.

Lemma op_in_spec op t : op_in op t = true <-> In op t.
Proof.
  unfold op_in. rewrite existsb_exists. split.
  - intros [c [Hin Heq]]. apply Ascii.eqb_eq in Heq. subst c. exact Hin.
  - intros Hin. exists op. split; [exact Hin | apply Ascii.eqb_refl].
Qed.

Lemma op_in_false op t : ~ In op t -> op_in op t = false.
Proof.
  intros Hnot. destruct (op_in op t) eqn:E; [| reflexivity].
  apply op_in_spec in E. contradiction.
Qed.

(** ** The groups of [groupby] *)

Section GroupbyFacts.
Context {A : Type} (key : A -> bool).

Lemma groupby_cons x l :
  exists g gs, groupby key (x :: l) = (key x, x :: g) :: gs.
Proof.
  cbn. destruct (groupby key l) as [| [k g] gs]; [eauto |].
  destruct (Bool.eqb (key x) k) eqn:E; [| eauto].
  apply Bool.eqb_prop in E. subst k. eauto.
Qed.

Lemma groupby_concat l : concat (map snd (groupby key l)) = l.
Proof.
  induction l as [| x l IH]; [reflexivity |]. cbn.
  destruct (groupby key l) as [| [k g] gs]; cbn in *; [congruence |].
  destruct (Bool.eqb (key x) k); cbn; congruence.
Qed.

Lemma groupby_runs l : Forall (is_run key) (groupby key l).
Proof.
  induction l as [| x l IH]; [constructor |]. cbn.
  destruct (groupby key l) as [| [k g] gs].
  - repeat constructor. discriminate.
  - apply Forall_cons in IH as [[Hne Hg] Hgs]. cbn in Hne, Hg.
    destruct (Bool.eqb (key x) k) eqn:E.
    + apply Bool.eqb_prop in E. constructor; [| exact Hgs].
      split; [discriminate | constructor; assumption].
    + constructor; [| constructor; [split |]; assumption].
      split; [discriminate | repeat constructor].
Qed.

Lemma groupby_alternating l : alternating (groupby key l).
Proof.
  induction l as [| x l IH]; [exact I |]. cbn.
  destruct (groupby key l) as [| [k g] gs]; [exact I |].
  destruct (Bool.eqb (key x) k) eqn:E; [exact IH |].
  split; [| exact IH]. intros Heq. subst k.
  rewrite Bool.eqb_reflx in E. discriminate.
Qed.
End GroupbyFacts.

Lemma digit_value_isdigit c d : digit_value c = Some d -> isdigit c = true.
Proof.
  unfold digit_value, isdigit.
  destruct ((48 <=? ord c) && (ord c <=? 57)); [reflexivity | discriminate].
Qed.

(** A group [int] accepts is a group of digits. *)
Lemma int_group_key k ds length :
  is_run isdigit (k, ds) -> int ds = Some length -> k = true.
Proof.
  intros [_ Hrun] Hint. cbn in Hrun.
  destruct ds as [| c ds]; [discriminate |].
  apply Forall_cons in Hrun as [Hc _]. cbn in Hint.
  destruct (digit_value c) as [v |] eqn:Hv; [| discriminate].
  apply digit_value_isdigit in Hv. congruence.
Qed.

Lemma read_tokens_well_formed groups : forall tokens,
  Forall (is_run isdigit) groups -> alternating groups ->
  read_tokens groups = inr tokens ->
  Forall (fun t : token => 0 <= fst t /\ isdigit (snd t) = false) tokens.
Proof.
  induction groups as [| g | [k1 ds] [k2 og] groups IH] using list_pair_ind;
    intros tokens Hruns Halt Hread.
  - injection Hread as <-. constructor.
  - destruct g as [k ds]. cbn in Hread. destruct (int ds); discriminate.
  - cbn [read_tokens] in Hread.
    destruct (int ds) as [length |] eqn:Hint; [| discriminate].
    destruct og as [| op og]; [discriminate |].
    destruct (read_tokens groups) as [e | tokens']; [discriminate |].
    injection Hread as <-.
    apply Forall_cons in Hruns as [Hrun1 Hruns].
    apply Forall_cons in Hruns as [[_ Hrun2] Hruns].
    destruct Halt as [Hne Halt].
    pose proof (int_group_key k1 ds length Hrun1 Hint) as ->.
    constructor.
    + split; [eapply int_nonneg, Hint |]. cbn [fst snd] in *.
      apply Forall_cons in Hrun2 as [-> _]. destruct k2; congruence.
    + apply IH; [exact Hruns | | reflexivity].
      destruct groups as [| [k3 g3] groups]; [exact I | apply Halt].
Qed.

(** ** A string for every token sequence *)

Lemma digit_char_value d : 0 <= d <= 9 ->
  digit_value (digit_char d) = Some d /\ isdigit (digit_char d) = true.
Proof.
  intros Hd.
  assert (H : d = 0 \/ d = 1 \/ d = 2 \/ d = 3 \/ d = 4 \/ d = 5 \/ d = 6
              \/ d = 7 \/ d = 8 \/ d = 9) by lia.
  repeat destruct H as [-> | H]; try subst d; split; reflexivity.
Qed.

Lemma int_from_app s c : forall acc,
  int_from acc (s ++ [c])
  = match int_from acc s, digit_value c with
    | Some v, Some d => Some (10 * v + d)
    | _, _ => None
    end.
Proof.
  induction s as [| x s IH]; intros acc; cbn.
  - destruct (digit_value c); reflexivity.
  - destruct (digit_value x); [apply IH | reflexivity].
Qed.

Lemma numeral_spec fuel : forall n,
  0 <= n <= Z.of_nat fuel ->
  int_from 0 (numeral fuel n) = Some n
  /\ numeral fuel n <> []
  /\ Forall (fun c => isdigit c = true) (numeral fuel n).
Proof.
  induction fuel as [| fuel IH]; intros n Hn.
  - assert (n = 0) as -> by lia.
    split; [reflexivity | split; [discriminate | repeat constructor]].
  - cbn [numeral]. destruct (Z.ltb_spec n 10) as [Hsmall | Hbig].
    + destruct (digit_char_value n ltac:(lia)) as [Hv Hd].
      cbn [int_from]. rewrite Hv. split; [| split].
      * reflexivity.
      * discriminate.
      * repeat constructor. exact Hd.
    + assert (Hdiv : 0 <= n / 10 <= Z.of_nat fuel).
      { split; [apply Z.div_pos; lia |].
        assert (n / 10 < n) by (apply Z.div_lt; lia). lia. }
      destruct (IH (n / 10) Hdiv) as [Hint [Hne Hall]].
      pose proof (Z.mod_pos_bound n 10 ltac:(lia)) as Hmod.
      destruct (digit_char_value (n mod 10) ltac:(lia)) as [Hv Hd].
      rewrite int_from_app, Hint, Hv. split; [| split].
      * f_equal. rewrite (Z.div_mod n 10) at 3 by lia. reflexivity.
      * intros Happ. apply app_eq_nil in Happ as [_ Hnil]. discriminate.
      * apply Forall_app. split; [exact Hall | repeat constructor; exact Hd].
Qed.

Lemma int_numeral n : 0 <= n ->
  int (numeral (Z.to_nat n) n) = Some n
  /\ exists c s, numeral (Z.to_nat n) n = c :: s
                 /\ Forall (fun c => isdigit c = true) (c :: s).
Proof.
  intros Hn. destruct (numeral_spec (Z.to_nat n) n ltac:(lia))
    as [Hint [Hne Hall]].
  destruct (numeral (Z.to_nat n) n) as [| c s] eqn:E; [contradiction |].
  split; [exact Hint | eauto].
Qed.

(** The groups of a digit run, an operator and what follows, when what
    follows is empty or starts with a digit. *)
Lemma groupby_token (ds : list ascii) (op : ascii) (tail : list ascii) :
  ds <> [] -> Forall (fun c => isdigit c = true) ds ->
  isdigit op = false ->
  match tail with [] => True | c :: _ => isdigit c = true end ->
  groupby isdigit (ds ++ op :: tail)
  = (true, ds) :: (false, [op]) :: groupby isdigit tail.
Proof.
  intros Hne Hds Hop Htail.
  assert (Hoptail : groupby isdigit (op :: tail)
                    = (false, [op]) :: groupby isdigit tail).
  { destruct tail as [| c tail]; [cbn; rewrite Hop; reflexivity |].
    destruct (groupby_cons isdigit c tail) as [g [gs Hg]].
    cbn [groupby] in Hg |- *. rewrite Hg, Hop, Htail. reflexivity. }
  induction Hds as [| c ds Hc Hds IH]; [contradiction |].
  destruct ds as [| c' ds].
  - cbn [app]. change (groupby isdigit (c :: op :: tail))
      with (match groupby isdigit (op :: tail) with
            | (k, g) :: gs =>
                if Bool.eqb (isdigit c) k then (k, c :: g) :: gs
                else (isdigit c, [c]) :: (k, g) :: gs
            | [] => [(isdigit c, [c])]
            end).
    rewrite Hoptail, Hc. reflexivity.
  - change (groupby isdigit ((c :: c' :: ds) ++ op :: tail))
      with (match groupby isdigit ((c' :: ds) ++ op :: tail) with
            | (k, g) :: gs =>
                if Bool.eqb (isdigit c) k then (k, c :: g) :: gs
                else (isdigit c, [c]) :: (k, g) :: gs
            | [] => [(isdigit c, [c])]
            end).
    rewrite IH by discriminate. rewrite Hc. reflexivity.
Qed.

Lemma read_tokens_cigar_of tokens :
  Forall (fun t : token => 0 <= fst t /\ isdigit (snd t) = false) tokens ->
  read_tokens (groupby isdigit (cigar_of tokens)) = inr tokens.
Proof.
  induction 1 as [| [length op] tokens [Hlen Hop] Hall IH]; [reflexivity |].
  cbn [fst snd] in Hlen, Hop. cbn [cigar_of].
  destruct (int_numeral length Hlen) as [Hint [c [s [Hnum Hdigits]]]].
  rewrite groupby_token.
  - cbn [read_tokens]. rewrite Hint, IH. reflexivity.
  - rewrite Hnum. discriminate.
  - rewrite Hnum. exact Hdigits.
  - exact Hop.
  - destruct Hall as [| [length' op'] tokens' [Hlen' _] _]; [exact I |].
    cbn [cigar_of fst] in *.
    destruct (int_numeral length' Hlen') as [_ [c' [s' [-> Hd']]]].
    apply Forall_cons in Hd' as [Hd' _]. exact Hd'.
Qed.

(** * A line of the reference file *)

Lemma lstrip_head s c r : lstrip s = c :: r -> isspace c = false.
Proof.
  induction s as [| x s IH]; cbn; [discriminate |].
  destruct (isspace x) eqn:E; [exact IH |].
  intros [= <- _]. exact E.
Qed.

Lemma strip_last s x c : strip s = (x ++ [c])%list -> isspace c = false.
Proof.
  unfold strip, rstrip. intros H.
  apply (f_equal (@rev ascii)) in H.
  rewrite rev_involutive, rev_app_distr in H. cbn in H.
  eapply lstrip_head, H.
Qed.

Lemma cut_spec sep s a b : cut sep s = Some (a, b) -> s = (a ++ sep :: b)%list.
Proof.
  revert a. induction s as [| c s IH]; intros a; cbn; [discriminate |].
  destruct (Ascii.eqb_spec c sep) as [-> | _].
  - intros [= <- <-]. reflexivity.
  - destruct (cut sep s) as [[a' b'] |]; [| discriminate].
    intros [= <- <-]. cbn. f_equal. apply IH. reflexivity.
Qed.

(** * The rows written, with repeated lines *)

Lemma keyed_snd tr_list queries : forall keyed,
  mapM (fun x => option_map (fun k => (k, x)) (make_keys tr_list !! row_key x))
       queries = Some keyed ->
  map snd keyed = queries.
Proof.
  induction queries as [| x queries IH]; intros keyed; cbn.
  - intros [= <-]. reflexivity.
  - destruct (make_keys tr_list !! row_key x) as [k |]; [| discriminate]. cbn.
    destruct (mapM _ queries) as [rest |]; [| discriminate]. cbn.
    intros [= <-]. cbn. rewrite (IH rest eq_refl). reflexivity.
Qed.

Lemma restore_Permutation tr_list queries rows :
  restore tr_list queries = Some rows -> Permutation rows queries.
Proof.
  unfold restore. destruct queries as [| x1 [| x2 queries]].
  - intros [= <-]. reflexivity.
  - intros [= <-]. reflexivity.
  - destruct (mapM _ _) as [keyed |] eqn:Hkeyed; [| discriminate].
    intros [= <-]. apply keyed_snd in Hkeyed. rewrite <- Hkeyed.
    apply Permutation_map, sorted_Permutation.
Qed.

(** * The properties of the specification *)

(** C1. Boundary freeze on a deletion: the tokens 3M, 2D, 3M with
    [qpos = 3] and [rpos = 100] give 103, on the token sequence and on the
    string "3M2D3M"; the turn for 2D, entered with both counters at the
    values 3M left, changes neither. *)
Theorem boundary_freeze_on_deletion :
  map_tokens [(3, "M"); (2, "D"); (3, "M")]%char 3 100 = 103
  /\ parse_cigar "3M2D3M" 3 100 = Returns 103
  /\ step 3 3 "M" 0 100 = Continue 3 103
  /\ step 3 2 "D" 3 103 = Continue 3 103.
Proof. repeat split; reflexivity. Qed.

(** C2 fails on the code: with the tokens 3M, 2I, 3M and [rpos = 100] the
    query position 4, inside the insertion, is mapped to 104 and the later
    position 5 to 103. *)
Theorem later_query_pos_maps_earlier :
  map_tokens [(3, "M"); (2, "I"); (3, "M")]%char 4 100 = 104
  /\ map_tokens [(3, "M"); (2, "I"); (3, "M")]%char 5 100 = 103
  /\ parse_cigar "3M2I3M" 4 100 = Returns 104
  /\ parse_cigar "3M2I3M" 5 100 = Returns 103.
Proof. repeat split; reflexivity. Qed.

(** C3. Overshoot inside an insertion: the tokens 3M, 2I, 3M with
    [qpos = 4] and [rpos = 100] give 104, on the token sequence and on the
    string "3M2I3M"; the turn for 2I neither moves a counter nor returns, and
    the next 3M returns one base past 103. *)
Theorem insertion_overshoot_continues :
  map_tokens [(3, "M"); (2, "I"); (3, "M")]%char 4 100 = 104
  /\ parse_cigar "3M2I3M" 4 100 = Returns 104
  /\ step 4 2 "I" 3 103 = Continue 3 103
  /\ step 4 3 "M" 3 103 = Return 104.
Proof. repeat split; reflexivity. Qed.

(** C4. Lower bound: when no token length is negative, the walk from
    [rpos] returns a value that is at least [rpos], and so is every value the
    reference counter takes on the way.  (Neither [qpos >= 0] nor
    [rpos >= 0] is needed.) *)
Theorem map_tokens_lower_bound (tokens : list token) (qpos rpos : Z) :
  Forall (fun t : token => 0 <= fst t) tokens ->
  rpos <= map_tokens tokens qpos rpos
  /\ Forall (fun r => rpos <= r) (ref_trace tokens qpos 0 rpos).
Proof.
  intros Hlen. split.
  - apply walk_ref_le. exact Hlen.
  - apply ref_trace_le; [exact Hlen | lia].
Qed.

Lemma map_tokens_lower_bound_witness :
  Forall (fun t : token => 0 <= fst t) [(3, "M"); (2, "D"); (3, "M")]%char
  /\ 100 <= map_tokens [(3, "M"); (2, "D"); (3, "M")]%char 7 100
  /\ Forall (fun r => 100 <= r)
       (ref_trace [(3, "M"); (2, "D"); (3, "M")]%char 7 0 100).
Proof.
  assert (Hlen : Forall (fun t : token => 0 <= fst t)
                   [(3, "M"); (2, "D"); (3, "M")]%char).
  { repeat constructor; cbn; lia. }
  split; [exact Hlen |].
  apply (map_tokens_lower_bound [(3, "M"); (2, "D"); (3, "M")]%char 7 100 Hlen).
Defined.

(** C5. Query position zero: for every token sequence and every [rpos],
    the walk with [qpos = 0] returns [rpos]; so does [parse_cigar] on every
    string these tokens are read from. *)
Theorem zero_query_pos_returns_rpos (tokens : list token) (rpos : Z) :
  map_tokens tokens 0 rpos = rpos
  /\ forall cigar, tokenize cigar = inr tokens ->
       parse_cigar cigar 0 rpos = Returns rpos.
Proof.
  assert (H : map_tokens tokens 0 rpos = rpos).
  { apply walk_frozen. lia. }
  split; [exact H |].
  intros cigar Hread. rewrite (parse_cigar_walk cigar tokens) by exact Hread.
  rewrite H. reflexivity.
Qed.

Lemma zero_query_pos_returns_rpos_witness :
  tokenize "3M2D" = inr [(3, "M"); (2, "D")]%char
  /\ map_tokens [(3, "M"); (2, "D")]%char 0 100 = 100
  /\ parse_cigar "3M2D" 0 100 = Returns 100.
Proof.
  assert (Hread : tokenize "3M2D" = inr [(3, "M"); (2, "D")]%char)
    by reflexivity.
  destruct (zero_query_pos_returns_rpos [(3, "M"); (2, "D")]%char 100)
    as [Hwalk Hparse].
  split; [exact Hread | split; [exact Hwalk | apply Hparse, Hread]].
Defined.

(** C6. One match token: for the single token (L, M) and
    [0 <= qpos <= L], the walk from [r0] returns [r0 + qpos]; so does
    [parse_cigar] on every string this token is read from. *)
Theorem single_match_is_one_to_one (L qpos r0 : Z) :
  0 <= qpos <= L ->
  map_tokens [(L, "M"%char)] qpos r0 = r0 + qpos
  /\ forall cigar, tokenize cigar = inr [(L, "M"%char)] ->
       parse_cigar cigar qpos r0 = Returns (r0 + qpos).
Proof.
  intros [Hlo Hhi].
  assert (H : map_tokens [(L, "M"%char)] qpos r0 = r0 + qpos).
  { unfold map_tokens. cbn [walk]. unfold step.
    change (op_in "M" q_consume) with true.
    change (op_in "M" ref_consume) with true. cbn [andb].
    rewrite Z.add_0_l.
    destruct (Z.ltb_spec 0 qpos) as [Hpos | Hzero]; [| lia].
    destruct (Z.leb_spec L qpos) as [Hfit | Hover]; cbn zeta; lia. }
  split; [exact H |].
  intros cigar Hread. rewrite (parse_cigar_walk cigar _ _ _ Hread), H.
  reflexivity.
Qed.

Lemma single_match_is_one_to_one_witness :
  0 <= 4 <= 10
  /\ tokenize "10M" = inr [(10, "M"%char)]
  /\ map_tokens [(10, "M"%char)] 4 100 = 100 + 4
  /\ parse_cigar "10M" 4 100 = Returns (100 + 4).
Proof.
  assert (Hq : 0 <= 4 <= 10) by lia.
  assert (Hread : tokenize "10M" = inr [(10, "M"%char)]) by reflexivity.
  destruct (single_match_is_one_to_one 10 4 100 Hq) as [Hwalk Hparse].
  split; [exact Hq | split; [exact Hread |]].
  split; [exact Hwalk | apply Hparse, Hread].
Defined.

(** C7. A token of length zero, with any operator and at any place in the
    sequence, does not change what the walk returns, for every [qpos] and
    [rpos]; two strings that are read as the sequence with and without it
    get the same result from [parse_cigar]. *)
Theorem zero_length_token_is_identity
    (pre post : list token) (op : ascii) (qpos rpos : Z) :
  map_tokens (pre ++ (0, op) :: post)%list qpos rpos
  = map_tokens (pre ++ post)%list qpos rpos
  /\ forall cigar cigar',
       tokenize cigar = inr (pre ++ (0, op) :: post)%list ->
       tokenize cigar' = inr (pre ++ post)%list ->
       parse_cigar cigar qpos rpos = parse_cigar cigar' qpos rpos.
Proof.
  assert (H : map_tokens (pre ++ (0, op) :: post)%list qpos rpos
              = map_tokens (pre ++ post)%list qpos rpos).
  { apply walk_skip. intros result ref_result. apply step_zero_length. }
  split; [exact H |].
  intros cigar cigar' Hread Hread'.
  rewrite (parse_cigar_walk _ _ _ _ Hread), (parse_cigar_walk _ _ _ _ Hread').
  rewrite H. reflexivity.
Qed.

Lemma zero_length_token_is_identity_witness :
  tokenize "3M0D3M" = inr [(3, "M"); (0, "D"); (3, "M")]%char
  /\ tokenize "3M3M" = inr [(3, "M"); (3, "M")]%char
  /\ map_tokens [(3, "M"); (0, "D"); (3, "M")]%char 4 100
     = map_tokens [(3, "M"); (3, "M")]%char 4 100
  /\ parse_cigar "3M0D3M" 4 100 = parse_cigar "3M3M" 4 100.
Proof.
  assert (Hread : tokenize "3M0D3M" = inr [(3, "M"); (0, "D"); (3, "M")]%char)
    by reflexivity.
  assert (Hread' : tokenize "3M3M" = inr [(3, "M"); (3, "M")]%char)
    by reflexivity.
  destruct (zero_length_token_is_identity
              [(3, "M"%char)] [(3, "M"%char)] "D" 4 100) as [Hwalk Hparse].
  split; [exact Hread | split; [exact Hread' |]].
  split; [exact Hwalk | apply Hparse; [exact Hread | exact Hread']].
Defined.

(** C8, as the code has it: [parse_cigar] on the empty string raises
    nothing; the loop makes no turn and the function returns [rpos], for
    every [qpos] and [rpos].  The empty string is read as the empty token
    sequence. *)
Theorem empty_cigar_returns_rpos (qpos rpos : Z) :
  parse_cigar "" qpos rpos = Returns rpos /\ tokenize "" = inr [].
Proof. split; reflexivity. Qed.

(** C8 fails as stated: on the empty string with [qpos = 5] and
    [rpos = 100], [parse_cigar] returns 100 and raises no exception. *)
Lemma empty_cigar_is_not_an_error :
  parse_cigar "" 5 100 = Returns 100
  /\ forall e, parse_cigar "" 5 100 <> Raises e.
Proof. split; [reflexivity | intros e; discriminate]. Qed.

(** C9 fails on the code for a query file with a repeated line: for the
    lines A 1, B 2, A 1 the rows are written in the order B, A, A, while the
    rows in the order of the file are A, B, A. *)
Theorem repeated_lines_are_misordered :
  sorted_queries d_dup tr_dup
  = Some [("B", 2, "chr2", 9); ("A", 1, "chr1", 101); ("A", 1, "chr1", 101)]
  /\ mapping_loop d_dup tr_dup
     = Some [("A", 1, "chr1", 101); ("B", 2, "chr2", 9); ("A", 1, "chr1", 101)]
  /\ make_keys tr_dup !! ("A", 1) = Some 2%nat.
Proof. repeat split; vm_compute; reflexivity. Qed.

(** C10. An operator outside M, I, D, N, S, H, P, =, X: the turn of the
    loop for such a token leaves both counters as they are and does not
    return, exactly as for N and P; the token can be dropped from the
    sequence without changing the result; and the loop of [parse_cigar] goes
    on to the groups after it, raising nothing for it. *)
Theorem unrecognized_operator_is_skipped (qpos length : Z) (op : ascii) :
  ~ In op ["M"; "I"; "D"; "N"; "S"; "H"; "P"; "="; "X"]%char ->
  (forall result ref_result,
      step qpos length op result ref_result = Continue result ref_result
      /\ step qpos length op result ref_result
         = step qpos length "N" result ref_result
      /\ step qpos length op result ref_result
         = step qpos length "P" result ref_result)
  /\ (forall pre post rpos,
         map_tokens (pre ++ (length, op) :: post) qpos rpos
         = map_tokens (pre ++ post) qpos rpos)
  /\ (forall k1 k2 ds og groups result ref_result,
         int ds = Some length ->
         cigar_loop ((k1, ds) :: (k2, op :: og) :: groups)
           qpos result ref_result
         = cigar_loop groups qpos result ref_result).
Proof.
  intros Hop.
  assert (Hq : op_in op q_consume = false).
  { apply op_in_false. intros Hin. apply Hop. cbn in Hin |- *. tauto. }
  assert (Hr : op_in op ref_consume = false).
  { apply op_in_false. intros Hin. apply Hop. cbn in Hin |- *. tauto. }
  assert (Hstep : forall result ref_result,
             step qpos length op result ref_result
             = Continue result ref_result).
  { intros. apply step_no_consume; assumption. }
  split; [| split].
  - intros result ref_result. rewrite Hstep.
    rewrite !step_no_consume by reflexivity. auto.
  - intros pre post rpos. apply walk_skip. exact Hstep.
  - intros k1 k2 ds og groups result ref_result Hint.
    cbn [cigar_loop]. rewrite Hint, Hstep. reflexivity.
Qed.

Lemma unrecognized_operator_is_skipped_witness :
  ~ In "Q"%char ["M"; "I"; "D"; "N"; "S"; "H"; "P"; "="; "X"]%char
  /\ int ["4"%char] = Some 4
  /\ step 7 4 "Q" 3 103 = Continue 3 103
  /\ step 7 4 "Q" 3 103 = step 7 4 "N" 3 103
  /\ step 7 4 "Q" 3 103 = step 7 4 "P" 3 103
  /\ map_tokens [(3, "M"); (4, "Q"); (9, "M")]%char 7 100
     = map_tokens [(3, "M"); (9, "M")]%char 7 100
  /\ cigar_loop [(true, ["4"]); (false, ["Q"]); (true, ["9"]); (false, ["M"])]%char
       7 3 103
     = cigar_loop [(true, ["9"]); (false, ["M"])]%char 7 3 103.
Proof.
  assert (Hop : ~ In "Q"%char ["M"; "I"; "D"; "N"; "S"; "H"; "P"; "="; "X"]%char).
  { cbn. intros H. repeat destruct H as [H | H]; try discriminate H. exact H. }
  assert (Hint : int ["4"%char] = Some 4) by reflexivity.
  destruct (unrecognized_operator_is_skipped 7 4 "Q" Hop)
    as [Hstep [Hwalk Hloop]].
  destruct (Hstep 3 103) as [H1 [H2 H3]].
  split; [exact Hop | split; [exact Hint |]].
  split; [exact H1 | split; [exact H2 | split; [exact H3 | split]]].
  - apply (Hwalk [(3, "M"%char)] [(9, "M"%char)] 100).
  - apply Hloop, Hint.
Defined.

(** * Further properties of the code *)

(** ** [parse_cigar] and the walk over tokens *)

(** On a string whose groups can all be read, [parse_cigar] returns what the
    walk over the tokens read returns. *)
Theorem parse_cigar_tokens cigar tokens qpos rpos :
  tokenize cigar = inr tokens ->
  parse_cigar cigar qpos rpos = Returns (map_tokens tokens qpos rpos).
Proof. apply parse_cigar_walk. Qed.

Lemma parse_cigar_tokens_witness :
  tokenize "10M2I5M" = inr [(10, "M"); (2, "I"); (5, "M")]%char
  /\ parse_cigar "10M2I5M" 11 100
     = Returns (map_tokens [(10, "M"); (2, "I"); (5, "M")]%char 11 100).
Proof.
  assert (Hread : tokenize "10M2I5M"
                  = inr [(10, "M"); (2, "I"); (5, "M")]%char) by reflexivity.
  split; [exact Hread | apply (parse_cigar_tokens "10M2I5M" _ 11 100 Hread)].
Defined.

(** The tokens [parse_cigar] can read from a string have a length that is
    not negative and an operator that is no digit. *)
Theorem tokenize_well_formed cigar tokens :
  tokenize cigar = inr tokens ->
  Forall (fun t : token => 0 <= fst t /\ isdigit (snd t) = false) tokens.
Proof.
  apply read_tokens_well_formed;
    [apply groupby_runs | apply groupby_alternating].
Qed.

Lemma tokenize_well_formed_witness :
  tokenize "10M2I5M" = inr [(10, "M"); (2, "I"); (5, "M")]%char
  /\ Forall (fun t : token => 0 <= fst t /\ isdigit (snd t) = false)
       [(10, "M"); (2, "I"); (5, "M")]%char.
Proof.
  assert (Hread : tokenize "10M2I5M"
                  = inr [(10, "M"); (2, "I"); (5, "M")]%char) by reflexivity.
  split; [exact Hread | apply (tokenize_well_formed "10M2I5M" _ Hread)].
Defined.

(** Every sequence of tokens with lengths that are not negative and
    operators that are no digits is read from a string, and on that
    string [parse_cigar] returns what the walk over the tokens returns. *)
Theorem token_sequence_has_cigar tokens qpos rpos :
  Forall (fun t : token => 0 <= fst t /\ isdigit (snd t) = false) tokens ->
  exists cigar,
    tokenize cigar = inr tokens
    /\ parse_cigar cigar qpos rpos = Returns (map_tokens tokens qpos rpos).
Proof.
  intros Hwf. exists (string_of_list_ascii (cigar_of tokens)).
  assert (Hread : tokenize (string_of_list_ascii (cigar_of tokens))
                  = inr tokens).
  { unfold tokenize. rewrite list_ascii_of_string_of_list_ascii.
    apply read_tokens_cigar_of, Hwf. }
  split; [exact Hread | apply parse_cigar_walk, Hread].
Qed.

Lemma token_sequence_has_cigar_witness :
  Forall (fun t : token => 0 <= fst t /\ isdigit (snd t) = false)
    [(12, "M"); (0, "D"); (305, "I")]%char
  /\ exists cigar,
       tokenize cigar = inr [(12, "M"); (0, "D"); (305, "I")]%char
       /\ parse_cigar cigar 14 100
          = Returns (map_tokens [(12, "M"); (0, "D"); (305, "I")]%char 14 100).
Proof.
  assert (Hwf : Forall (fun t : token => 0 <= fst t /\ isdigit (snd t) = false)
                  [(12, "M"); (0, "D"); (305, "I")]%char).
  { repeat constructor; cbn; lia. }
  split; [exact Hwf | apply (token_sequence_has_cigar _ 14 100 Hwf)].
Defined.

(** The value [parse_cigar] returns is never below [rpos], whatever the
    string and the query position. *)
Theorem parse_cigar_lower_bound cigar qpos rpos v :
  parse_cigar cigar qpos rpos = Returns v -> rpos <= v.
Proof. apply cigar_loop_ref_le. Qed.

Lemma parse_cigar_lower_bound_witness :
  parse_cigar "3M2D3M" 4 100 = Returns 106 /\ 100 <= 106.
Proof.
  assert (Hrun : parse_cigar "3M2D3M" 4 100 = Returns 106) by reflexivity.
  split; [exact Hrun | apply (parse_cigar_lower_bound "3M2D3M" 4 100 106 Hrun)].
Defined.

(** Monotonicity away from insertions: when no length is negative and no
    query-only token is longer than one base, a later query position is
    never mapped to an earlier reference position. *)
Theorem map_tokens_monotone (tokens : list token) (rpos q q' : Z) :
  Forall (fun t : token => 0 <= fst t /\ query_only_long t = false) tokens ->
  q <= q' ->
  map_tokens tokens q rpos <= map_tokens tokens q' rpos.
Proof. intros Hall Hq. apply walk_monotone; assumption. Qed.

Lemma map_tokens_monotone_witness :
  Forall (fun t : token => 0 <= fst t /\ query_only_long t = false)
    [(3, "M"); (2, "D"); (1, "I"); (3, "M")]%char
  /\ 4 <= 5
  /\ map_tokens [(3, "M"); (2, "D"); (1, "I"); (3, "M")]%char 4 100
     <= map_tokens [(3, "M"); (2, "D"); (1, "I"); (3, "M")]%char 5 100.
Proof.
  assert (Hall : Forall (fun t : token => 0 <= fst t /\ query_only_long t = false)
                   [(3, "M"); (2, "D"); (1, "I"); (3, "M")]%char).
  { repeat constructor; cbn; lia. }
  assert (Hq : 4 <= 5) by lia.
  split; [exact Hall | split; [exact Hq |]].
  apply (map_tokens_monotone _ 100 4 5 Hall Hq).
Defined.

(** A query-only token that would pass the target changes nothing and does
    not end the walk, whatever its length. *)
Theorem step_query_only_overshoot qpos length op result ref_result :
  op_in op q_consume = true -> op_in op ref_consume = false ->
  result < qpos < result + length ->
  step qpos length op result ref_result = Continue result ref_result.
Proof.
  intros Hq Hr [Hlt Hover]. unfold step. rewrite Hq, Hr. cbn [andb].
  destruct (Z.ltb_spec result qpos); [| lia].
  destruct (Z.leb_spec (result + length) qpos); [lia | reflexivity].
Qed.

Lemma step_query_only_overshoot_witness :
  op_in "S" q_consume = true /\ op_in "S" ref_consume = false
  /\ 3 < 4 < 3 + 2
  /\ step 4 2 "S" 3 103 = Continue 3 103.
Proof.
  assert (Hover : 3 < 4 < 3 + 2) by lia.
  split; [reflexivity | split; [reflexivity | split; [exact Hover |]]].
  apply (step_query_only_overshoot 4 2 "S" 3 103 eq_refl eq_refl Hover).
Defined.

(** The groups are read one turn at a time: a defect of the string after
    the token at which the walk returns is never seen, and of a group of
    several operator characters only the first is read. *)
Theorem defects_after_the_return_are_not_read :
  parse_cigar "3M2" 2 100 = Returns 102
  /\ parse_cigar "3M2" 3 100 = Raises StopIteration
  /\ tokenize "3M2" = inl StopIteration
  /\ parse_cigar "M3" 0 100 = Raises ValueError
  /\ parse_cigar "3MQ2D" 5 100 = Returns 105.
Proof. repeat split; reflexivity. Qed.

(** ** The order of the rows *)

(** Without repeated lines the order of the query file is restored: for
    every order in which the mapping loop may take the queries, [restore]
    returns the rows in file order; and the rows the program writes are
    those of the mapping loop run in file order (or the run fails in both). *)
Theorem order_restored_without_repeats d tr_list :
  NoDup tr_list ->
  sorted_queries d tr_list = mapping_loop d tr_list
  /\ forall order queries,
       Permutation order tr_list ->
       mapping_loop d order = Some queries ->
       restore tr_list queries = mapping_loop d tr_list
       /\ Forall2 (fun q x => map_query d q = Some x) tr_list
            (map (row_of d) tr_list).
Proof.
  intros Hnodup. split; [apply sorted_queries_NoDup, Hnodup |].
  intros order queries Hperm Hloop.
  destruct (restore_any_order d tr_list order queries Hnodup Hperm Hloop)
    as [Hrestore Hfile].
  split; [congruence |].
  rewrite mapping_loop_mapM in Hfile. apply mapM_Some_1 in Hfile. exact Hfile.
Qed.

Lemma order_restored_without_repeats_witness :
  NoDup [("B", 2); ("A", 1); ("A", 0)]
  /\ Permutation [("A", 0); ("A", 1); ("B", 2)] [("B", 2); ("A", 1); ("A", 0)]
  /\ mapping_loop d_dup [("A", 0); ("A", 1); ("B", 2)]
     = Some [("A", 0, "chr1", 100); ("A", 1, "chr1", 101); ("B", 2, "chr2", 9)]
  /\ sorted_queries d_dup [("B", 2); ("A", 1); ("A", 0)]
     = mapping_loop d_dup [("B", 2); ("A", 1); ("A", 0)]
  /\ restore [("B", 2); ("A", 1); ("A", 0)]
       [("A", 0, "chr1", 100); ("A", 1, "chr1", 101); ("B", 2, "chr2", 9)]
     = mapping_loop d_dup [("B", 2); ("A", 1); ("A", 0)].
Proof.
  assert (Hnodup : NoDup [("B", 2); ("A", 1); ("A", 0)]).
  { repeat constructor; rewrite ?list_elem_of_In; cbn;
      intros H; repeat destruct H as [H | H]; try discriminate H; exact H. }
  assert (Hperm : Permutation [("A", 0); ("A", 1); ("B", 2)]
                    [("B", 2); ("A", 1); ("A", 0)])
    by exact (Permutation_rev [("A", 0); ("A", 1); ("B", 2)]).
  assert (Hloop : mapping_loop d_dup [("A", 0); ("A", 1); ("B", 2)]
                  = Some [("A", 0, "chr1", 100); ("A", 1, "chr1", 101);
                          ("B", 2, "chr2", 9)])
    by (vm_compute; reflexivity).
  destruct (order_restored_without_repeats d_dup _ Hnodup) as [Hrun Hany].
  split; [exact Hnodup | split; [exact Hperm | split; [exact Hloop |]]].
  split; [exact Hrun | apply (Hany _ _ Hperm Hloop)].
Defined.

(** With or without repeated lines, a run that ends normally writes the rows
    of the query file, each as often as its line occurs: the rows written are
    a rearrangement of the rows in file order, one per line. *)
Theorem sorted_queries_Permutation d tr_list rows :
  sorted_queries d tr_list = Some rows ->
  Permutation rows (map (row_of d) tr_list)
  /\ List.length rows = List.length tr_list.
Proof.
  unfold sorted_queries.
  destruct (mapping_loop d _) as [queries |] eqn:Hloop; [| discriminate].
  intros Hrestore. apply restore_Permutation in Hrestore.
  apply mapping_loop_Some in Hloop as [-> _].
  assert (Hperm : Permutation rows (map (row_of d) tr_list)).
  { rewrite Hrestore. apply Permutation_map, sorted_Permutation. }
  split; [exact Hperm |].
  rewrite (Permutation_length Hperm). apply length_map.
Qed.

Lemma sorted_queries_Permutation_witness :
  sorted_queries d_dup tr_dup
  = Some [("B", 2, "chr2", 9); ("A", 1, "chr1", 101); ("A", 1, "chr1", 101)]
  /\ Permutation
       [("B", 2, "chr2", 9); ("A", 1, "chr1", 101); ("A", 1, "chr1", 101)]
       (map (row_of d_dup) tr_dup)
  /\ List.length
       [("B", 2, "chr2", 9); ("A", 1, "chr1", 101); ("A", 1, "chr1", 101)]
     = List.length tr_dup.
Proof.
  assert (Hrun : sorted_queries d_dup tr_dup
                 = Some [("B", 2, "chr2", 9); ("A", 1, "chr1", 101);
                         ("A", 1, "chr1", 101)])
    by (vm_compute; reflexivity).
  split; [exact Hrun | apply (sorted_queries_Permutation d_dup tr_dup _ Hrun)].
Defined.

(** ** The reference file *)

(** A line that [read_file] can unpack has a CIGAR column that is not
    empty: [strip] has removed a tab that ends the line, so a line with an
    empty fourth column has three fields. *)
Theorem split_line_cigar_not_empty line tr chrname rpos cigar :
  split_line line = Some (tr, chrname, rpos, cigar) -> cigar <> "".
Proof.
  unfold split_line.
  set (s := strip (list_ascii_of_string line)).
  assert (Hlast : forall x c, s = (x ++ [c])%list -> isspace c = false).
  { intros x c. apply strip_last. }
  clearbody s. cbn [split].
  destruct (cut "009" s) as [[f1 s1] |] eqn:H1; [| discriminate].
  destruct (cut "009" s1) as [[f2 s2] |] eqn:H2; [| discriminate].
  destruct (cut "009" s2) as [[f3 s3] |] eqn:H3; [| discriminate].
  intros [= _ _ _ <-]. destruct s3 as [| c s3]; [| discriminate].
  apply cut_spec in H1, H2, H3. subst s s1 s2.
  specialize (Hlast (f1 ++ "009"%char :: f2 ++ "009"%char :: f3)%list
                "009"%char).
  rewrite <- !app_assoc in Hlast. cbn in Hlast.
  rewrite <- !app_assoc in Hlast. cbn in Hlast.
  specialize (Hlast eq_refl). discriminate.
Qed.

Lemma split_line_cigar_not_empty_witness :
  split_line ("tr1" ++ String "009" ("chr1" ++ String "009" ("100" ++
                String "009" ("3M2D" ++ String "010" ""))))
  = Some ("tr1", "chr1", "100", "3M2D")%string
  /\ "3M2D"%string <> ""%string.
Proof.
  assert (Hline :
            split_line ("tr1" ++ String "009" ("chr1" ++ String "009" ("100" ++
                          String "009" ("3M2D" ++ String "010" ""))))
            = Some ("tr1", "chr1", "100", "3M2D")%string) by reflexivity.
  split; [exact Hline | apply (split_line_cigar_not_empty _ _ _ _ _ Hline)].
Defined.

(** * [int] and [str] *)

Ltac ord_cases :=
  repeat match goal with
    | |- context [?a <=? ?b] => destruct (Z.leb_spec a b)
    | |- context [?a =? ?b] => destruct (Z.eqb_spec a b)
    end;
  cbn; try reflexivity; try discriminate; try lia.

Lemma isdigit_not_space c :
  isdigit c = true -> isspace c = false /\ int_space c = false.
Proof.
  unfold isdigit, isspace, int_space. generalize (ord c). intros n.
  split; revert H; ord_cases.
Qed.

Lemma int_space_isspace c : int_space c = true -> isspace c = true.
Proof.
  unfold isspace, int_space. generalize (ord c). intros n. ord_cases.
Qed.

Lemma isdigit_plain c :
  isdigit c = true ->
  Ascii.eqb c "-" = false /\ Ascii.eqb c "+" = false
  /\ Ascii.eqb c "_" = false.
Proof.
  intros H.
  assert (Hne : forall x, isdigit x = false -> Ascii.eqb c x = false).
  { intros x Hx. destruct (Ascii.eqb_spec c x) as [-> |];
      [congruence | reflexivity]. }
  repeat split; apply Hne; reflexivity.
Qed.


(** On a run of digit characters the digits are read to the end, or up to a
    character that is no decimal digit and no white space. *)
Lemma int_digits_run s : forall acc,
  Forall (fun c => isdigit c = true) s ->
  match int_from acc s with
  | Some v => int_digits acc s = (v, [])
  | None => forallb int_space (snd (int_digits acc s)) = false
  end.
Proof.
  induction s as [| c s IH]; intros acc Hall; [reflexivity |].
  apply Forall_cons in Hall as [Hc Hall]. cbn [int_from int_digits].
  destruct (digit_value c) as [d |]; [apply IH, Hall |].
  destruct (isdigit_plain c Hc) as [_ [_ ->]].
  destruct (isdigit_not_space c Hc) as [_ Hsp]. cbn. rewrite Hsp. reflexivity.
Qed.

Lemma int_unsigned_run s :
  Forall (fun c => isdigit c = true) s -> int_unsigned s = int s.
Proof.
  intros Hall. destruct s as [| c s]; [reflexivity |].
  apply Forall_cons in Hall as [Hc Hall]. cbn [int_unsigned int int_from].
  destruct (digit_value c) as [d |]; [| reflexivity].
  change (10 * 0 + d) with d.
  pose proof (int_digits_run s d Hall) as Hrun.
  destruct (int_from d s) as [v |].
  - rewrite Hrun. reflexivity.
  - cbn zeta. rewrite Hrun. reflexivity.
Qed.

Lemma int_str_run s :
  Forall (fun c => isdigit c = true) s -> int_str s = int s.
Proof.
  intros Hall. destruct s as [| c s]; [reflexivity |].
  pose proof Hall as Hall'. apply Forall_cons in Hall' as [Hc _].
  unfold int_str. cbn [lskip].
  destruct (isdigit_not_space c Hc) as [_ ->].
  destruct (isdigit_plain c Hc) as [-> [-> _]].
  apply int_unsigned_run, Hall.
Qed.






Lemma numeral_digits n : 0 <= n ->
  numeral (Z.to_nat n) n <> []
  /\ Forall (fun c => isdigit c = true) (numeral (Z.to_nat n) n)
  /\ int_unsigned (numeral (Z.to_nat n) n) = Some n.
Proof.
  intros Hn. destruct (numeral_spec (Z.to_nat n) n ltac:(lia))
    as [Hint [Hne Hall]].
  split; [exact Hne | split; [exact Hall |]].
  rewrite (int_unsigned_run _ Hall).
  destruct (numeral (Z.to_nat n) n); [contradiction | exact Hint].
Qed.

(** Round trip: [int(str(n)) == n] for every integer, so a position the
    program writes is read back as the same number. *)
Theorem int_str_str_int (n : Z) : int_str (str_int n) = Some n.
Proof.
  unfold str_int. destruct (Z.ltb_spec n 0) as [Hneg | Hpos].
  - destruct (numeral_digits (- n) ltac:(lia)) as [_ [_ Hint]].
    unfold int_str. cbn [lskip]. change (int_space "-") with false.
    cbn [Ascii.eqb Bool.eqb]. change (Ascii.eqb "-" "-") with true. cbn iota.
    rewrite Hint. cbn. f_equal. lia.
  - destruct (numeral_digits n Hpos) as [Hne [Hall Hint]].
    rewrite (int_str_run _ Hall), <- (int_unsigned_run _ Hall). exact Hint.
Qed.

(** * More on [parse_cigar] *)

(** ** What it raises *)

Lemma cigar_loop_raises qpos groups : forall result ref_result e,
  cigar_loop groups qpos result ref_result = Raises e ->
  read_tokens groups = inl e.
Proof.
  induction groups as [| g | [k1 ds] [k2 og] groups IH] using list_pair_ind;
    intros result ref_result e Hrun.
  - discriminate.
  - destruct g as [k ds]. cbn in Hrun |- *.
    destruct (int ds); congruence.
  - cbn [cigar_loop] in Hrun. cbn [read_tokens].
    destruct (int ds) as [length |]; [| congruence].
    destruct og as [| op og]; [congruence |].
    destruct (step qpos length op result ref_result) as [result' ref' |];
      [| discriminate].
    rewrite (IH _ _ _ Hrun). reflexivity.
Qed.

Lemma cigar_loop_frozen_any qpos groups : forall result ref_result,
  qpos <= result ->
  cigar_loop groups qpos result ref_result
  = match read_tokens groups with
    | inr _ => Returns ref_result
    | inl e => Raises e
    end.
Proof.
  induction groups as [| g | [k1 ds] [k2 og] groups IH] using list_pair_ind;
    intros result ref_result Hge.
  - reflexivity.
  - destruct g as [k ds]. cbn. destruct (int ds); reflexivity.
  - cbn [cigar_loop read_tokens].
    destruct (int ds) as [length |]; [| reflexivity].
    destruct og as [| op og]; [reflexivity |].
    rewrite step_frozen by exact Hge. rewrite IH by exact Hge.
    destruct (read_tokens groups); reflexivity.
Qed.

(** The only exception [parse_cigar] raises is the one that stops the
    reading of the string into tokens: a string that can be read to the end
    never makes it raise. *)
Theorem parse_cigar_raises cigar qpos rpos e :
  parse_cigar cigar qpos rpos = Raises e -> tokenize cigar = inl e.
Proof. apply cigar_loop_raises. Qed.

Lemma parse_cigar_raises_witness :
  parse_cigar "3M2" 3 100 = Raises StopIteration
  /\ tokenize "3M2" = inl StopIteration.
Proof.
  assert (Hrun : parse_cigar "3M2" 3 100 = Raises StopIteration)
    by reflexivity.
  split; [exact Hrun | apply (parse_cigar_raises "3M2" 3 100 _ Hrun)].
Defined.

(** For a query position that is zero or negative no turn moves a counter
    or returns, so the whole string is read: [parse_cigar] returns [rpos]
    when the string can be read to the end and raises the reading's
    exception when it cannot. *)
Theorem parse_cigar_nonpositive_qpos cigar qpos rpos :
  qpos <= 0 ->
  parse_cigar cigar qpos rpos
  = match tokenize cigar with
    | inr _ => Returns rpos
    | inl e => Raises e
    end.
Proof. intros Hq. apply cigar_loop_frozen_any. exact Hq. Qed.

Lemma parse_cigar_nonpositive_qpos_witness :
  -3 <= 0
  /\ parse_cigar "3M2" (-3) 100
     = match tokenize "3M2" with
       | inr _ => Returns 100
       | inl e => Raises e
       end.
Proof.
  assert (Hq : -3 <= 0) by lia.
  split; [exact Hq | apply (parse_cigar_nonpositive_qpos "3M2" (-3) 100 Hq)].
Defined.

(** ** The range of the result *)

Lemma reference_length_nonneg tokens :
  Forall (fun t : token => 0 <= fst t) tokens -> 0 <= reference_length tokens.
Proof.
  induction 1 as [| [length op] tokens Hlen _ IH];
    cbn [reference_length fst] in *; [lia |].
  destruct (op_in op ref_consume); lia.
Qed.

Lemma query_length_nonneg tokens :
  Forall (fun t : token => 0 <= fst t) tokens -> 0 <= query_length tokens.
Proof.
  induction 1 as [| [length op] tokens Hlen _ IH];
    cbn [query_length fst] in *; [lia |].
  destruct (op_in op q_consume); lia.
Qed.

Lemma walk_ref_upper tokens qpos :
  Forall (fun t : token => 0 <= fst t) tokens ->
  forall result ref_result,
    walk tokens qpos result ref_result
    <= ref_result + reference_length tokens.
Proof.
  induction 1 as [| [length op] tokens Hlen Hall IH]; intros result ref_result.
  - cbn. lia.
  - pose proof (reference_length_nonneg tokens Hall) as Hrest.
    cbn [walk reference_length]. cbn in Hlen. unfold step.
    destruct (Z.ltb_spec result qpos) as [Hlt | Hge].
    + destruct (Z.leb_spec (result + length) qpos) as [Hfit | Hover].
      * cbn zeta. specialize (IH (if op_in op q_consume then result + length
                                  else result)
                                (if op_in op ref_consume
                                 then ref_result + length else ref_result)).
        destruct (op_in op ref_consume); lia.
      * destruct (op_in op q_consume), (op_in op ref_consume); cbn [andb];
          try (specialize (IH result (ref_result + length)); lia);
          try (specialize (IH result ref_result); lia); lia.
    + specialize (IH result ref_result).
      destruct (op_in op ref_consume); lia.
Qed.

Lemma tokenize_nonneg cigar tokens :
  tokenize cigar = inr tokens -> Forall (fun t : token => 0 <= fst t) tokens.
Proof.
  intros Hread. eapply List.Forall_impl;
    [| apply (read_tokens_well_formed _ _ (groupby_runs _ _)
                (groupby_alternating _ _) Hread)].
  intros t [H _]. exact H.
Qed.

(** The position [parse_cigar] returns for a string that can be read to the
    end lies in the reference span of the alignment: from [rpos] to [rpos]
    plus the lengths of all reference-consuming tokens. *)
Theorem parse_cigar_range cigar tokens qpos rpos :
  tokenize cigar = inr tokens ->
  exists v, parse_cigar cigar qpos rpos = Returns v
            /\ rpos <= v <= rpos + reference_length tokens.
Proof.
  intros Hread. exists (map_tokens tokens qpos rpos).
  pose proof (tokenize_nonneg cigar tokens Hread) as Hlen.
  split; [apply parse_cigar_walk, Hread |].
  split; [apply walk_ref_le, Hlen | apply walk_ref_upper, Hlen].
Qed.

Lemma parse_cigar_range_witness :
  tokenize "3M2D3M" = inr [(3, "M"); (2, "D"); (3, "M")]%char
  /\ exists v, parse_cigar "3M2D3M" 4 100 = Returns v
               /\ 100 <= v
                  <= 100 + reference_length [(3, "M"); (2, "D"); (3, "M")]%char.
Proof.
  assert (Hread : tokenize "3M2D3M" = inr [(3, "M"); (2, "D"); (3, "M")]%char)
    by reflexivity.
  split; [exact Hread | apply (parse_cigar_range "3M2D3M" _ 4 100 Hread)].
Defined.

Lemma walk_past_the_end tokens qpos :
  Forall (fun t : token => 0 <= fst t) tokens ->
  forall result ref_result,
    result + query_length tokens < qpos ->
    walk tokens qpos result ref_result
    = ref_result + reference_length tokens.
Proof.
  induction 1 as [| [length op] tokens Hlen Hall IH];
    intros result ref_result Hend.
  - cbn. lia.
  - pose proof (query_length_nonneg tokens Hall) as Hrest.
    cbn [walk reference_length query_length] in *. cbn in Hlen. unfold step.
    destruct (Z.ltb_spec result qpos) as [Hlt | Hge];
      [| destruct (op_in op q_consume); lia].
    destruct (Z.leb_spec (result + length) qpos) as [Hfit | Hover].
    + cbn zeta. rewrite IH; destruct (op_in op q_consume),
        (op_in op ref_consume); lia.
    + destruct (op_in op q_consume); [lia |]. cbn [andb].
      destruct (op_in op ref_consume); rewrite IH; lia.
Qed.

(** A query position past the end of the alignment is not an error: when
    [qpos] is greater than the number of query positions the string
    consumes, [parse_cigar] returns the end of the reference span. *)
Theorem parse_cigar_past_the_end cigar tokens qpos rpos :
  tokenize cigar = inr tokens ->
  query_length tokens < qpos ->
  parse_cigar cigar qpos rpos = Returns (rpos + reference_length tokens).
Proof.
  intros Hread Hend. rewrite (parse_cigar_walk _ _ _ _ Hread). f_equal.
  apply walk_past_the_end; [apply (tokenize_nonneg _ _ Hread) | lia].
Qed.

Lemma parse_cigar_past_the_end_witness :
  tokenize "3M2I2D3M" = inr [(3, "M"); (2, "I"); (2, "D"); (3, "M")]%char
  /\ query_length [(3, "M"); (2, "I"); (2, "D"); (3, "M")]%char < 50
  /\ parse_cigar "3M2I2D3M" 50 100
     = Returns
         (100 + reference_length [(3, "M"); (2, "I"); (2, "D"); (3, "M")]%char).
Proof.
  assert (Hread : tokenize "3M2I2D3M"
                  = inr [(3, "M"); (2, "I"); (2, "D"); (3, "M")]%char)
    by reflexivity.
  assert (Hend : query_length [(3, "M"); (2, "I"); (2, "D"); (3, "M")]%char < 50)
    by (cbn; lia).
  split; [exact Hread | split; [exact Hend |]].
  apply (parse_cigar_past_the_end "3M2I2D3M" _ 50 100 Hread Hend).
Defined.

Lemma walk_matches tokens qpos :
  Forall (fun t : token => 0 <= fst t
                           /\ op_in (snd t) q_consume = true
                           /\ op_in (snd t) ref_consume = true) tokens ->
  forall result ref_result,
    result <= qpos <= result + query_length tokens ->
    walk tokens qpos result ref_result = ref_result + (qpos - result).
Proof.
  induction 1 as [| [length op] tokens [Hlen [Hq Hr]] Hall IH];
    intros result ref_result Hin.
  - cbn in *. lia.
  - cbn [walk query_length] in *. cbn [fst snd] in Hlen, Hq, Hr.
    rewrite Hq in Hin. unfold step. rewrite Hq, Hr. cbn [andb].
    destruct (Z.ltb_spec result qpos) as [Hlt | Hge].
    + destruct (Z.leb_spec (result + length) qpos) as [Hfit | Hover].
      * cbn zeta. rewrite IH; lia.
      * lia.
    + rewrite walk_frozen by lia. lia.
Qed.

(** An alignment of match operations only (M, =, X) maps one to one: for
    every query position from zero to the query length of the string,
    [parse_cigar] returns [rpos + qpos]. *)
Theorem parse_cigar_matches_only cigar tokens qpos rpos :
  tokenize cigar = inr tokens ->
  Forall (fun t : token => op_in (snd t) q_consume = true
                           /\ op_in (snd t) ref_consume = true) tokens ->
  0 <= qpos <= query_length tokens ->
  parse_cigar cigar qpos rpos = Returns (rpos + qpos).
Proof.
  intros Hread Hops Hq. rewrite (parse_cigar_walk _ _ _ _ Hread). f_equal.
  unfold map_tokens. rewrite (walk_matches tokens qpos); [lia | | lia].
  pose proof (tokenize_nonneg _ _ Hread) as Hlen.
  rewrite List.Forall_forall in *. intros t Ht.
  split; [apply Hlen, Ht | apply Hops, Ht].
Qed.

Lemma parse_cigar_matches_only_witness :
  tokenize "3M2=4X" = inr [(3, "M"); (2, "="); (4, "X")]%char
  /\ Forall (fun t : token => op_in (snd t) q_consume = true
                              /\ op_in (snd t) ref_consume = true)
       [(3, "M"); (2, "="); (4, "X")]%char
  /\ 0 <= 6 <= query_length [(3, "M"); (2, "="); (4, "X")]%char
  /\ parse_cigar "3M2=4X" 6 100 = Returns (100 + 6).
Proof.
  assert (Hread : tokenize "3M2=4X" = inr [(3, "M"); (2, "="); (4, "X")]%char)
    by reflexivity.
  assert (Hops : Forall (fun t : token => op_in (snd t) q_consume = true
                                          /\ op_in (snd t) ref_consume = true)
                   [(3, "M"); (2, "="); (4, "X")]%char)
    by (repeat constructor).
  assert (Hq : 0 <= 6 <= query_length [(3, "M"); (2, "="); (4, "X")]%char)
    by (cbn; lia).
  split; [exact Hread | split; [exact Hops | split; [exact Hq |]]].
  apply (parse_cigar_matches_only "3M2=4X" _ 6 100 Hread Hops Hq).
Defined.

(** ** What is never read *)

Lemma groupby_extended {A : Type} (key : A -> bool) (s t : list A) :
  s <> [] -> extended (groupby key s) (groupby key (s ++ t)).
Proof.
  induction s as [| c s IH]; intros Hne; [contradiction |].
  destruct s as [| c' s].
  - destruct (groupby_cons key c t) as [x [rest Hg]].
    cbn [app]. rewrite Hg. apply (extended_last (key c) [c] x rest).
  - specialize (IH ltac:(discriminate)).
    change (groupby key (c :: c' :: s))
      with (match groupby key (c' :: s) with
            | (k, g) :: gs =>
                if Bool.eqb (key c) k then (k, c :: g) :: gs
                else (key c, [c]) :: (k, g) :: gs
            | [] => [(key c, [c])]
            end).
    change (groupby key ((c :: c' :: s) ++ t))
      with (match groupby key ((c' :: s) ++ t) with
            | (k, g) :: gs =>
                if Bool.eqb (key c) k then (k, c :: g) :: gs
                else (key c, [c]) :: (k, g) :: gs
            | [] => [(key c, [c])]
            end).
    destruct IH as [k g x rest | [k g] gs gs' Hext].
    + destruct (Bool.eqb (key c) k).
      * apply (extended_last k (c :: g) x rest).
      * apply extended_cons, extended_last.
    + destruct (Bool.eqb (key c) k); repeat apply extended_cons; exact Hext.
Qed.

Lemma cigar_loop_extended qpos groups :
  forall tokens groups' result ref_result v,
    read_tokens groups = inr tokens ->
    extended groups groups' ->
    walk_flow tokens qpos result ref_result = Return v ->
    cigar_loop groups' qpos result ref_result = Returns v.
Proof.
  induction groups as [| g | [k1 ds] [k2 og] groups IH] using list_pair_ind;
    intros tokens groups' result ref_result v Hread Hext Hflow.
  - inversion Hext.
  - destruct g as [k ds]. cbn in Hread. destruct (int ds); discriminate.
  - cbn [read_tokens] in Hread.
    destruct (int ds) as [length |] eqn:Hint; [| discriminate].
    destruct og as [| op og]; [discriminate |].
    destruct (read_tokens groups) as [e | tokens'] eqn:Hrest; [discriminate |].
    injection Hread as <-. cbn [walk_flow] in Hflow.
    inversion Hext as [| a gs gs1 Hext1]; subst.
    inversion Hext1 as [k g x rest | a gs gs2 Hext2]; subst.
    + cbn [cigar_loop app]. rewrite Hint.
      destruct (step qpos length op result ref_result) as [result' ref' | w].
      * injection Hrest as <-. discriminate Hflow.
      * congruence.
    + cbn [cigar_loop]. rewrite Hint.
      destruct (step qpos length op result ref_result) as [result' ref' | w].
      * apply (IH tokens'); [reflexivity | exact Hext2 | exact Hflow].
      * congruence.
Qed.

Lemma list_ascii_of_string_append (s t : string) :
  list_ascii_of_string (s ++ t)
  = (list_ascii_of_string s ++ list_ascii_of_string t)%list.
Proof.
  induction s as [| c s IH]; [reflexivity |].
  change (c :: list_ascii_of_string (s ++ t)
          = c :: (list_ascii_of_string s ++ list_ascii_of_string t)%list).
  f_equal. exact IH.
Qed.

Lemma walk_flow_walk tokens qpos : forall result ref_result,
  walk tokens qpos result ref_result
  = match walk_flow tokens qpos result ref_result with
    | Continue _ ref_result' => ref_result'
    | Return v => v
    end.
Proof.
  induction tokens as [| [length op] tokens IH]; intros result ref_result;
    [reflexivity |].
  cbn [walk walk_flow].
  destruct (step qpos length op result ref_result); [apply IH | reflexivity].
Qed.

(** Once a turn returns, nothing after its operator character is read: when
    the walk over the tokens of a string returns from inside a token,
    [parse_cigar] returns the same value for that string followed by any
    text at all, well formed or not. *)
Theorem parse_cigar_ignores_the_rest cigar tokens qpos rpos v :
  tokenize cigar = inr tokens ->
  walk_flow tokens qpos 0 rpos = Return v ->
  forall rest : string, parse_cigar (cigar ++ rest) qpos rpos = Returns v.
Proof.
  intros Hread Hflow rest. unfold parse_cigar.
  rewrite list_ascii_of_string_append.
  apply (cigar_loop_extended qpos
           (groupby isdigit (list_ascii_of_string cigar)) tokens);
    [exact Hread | | exact Hflow].
  apply groupby_extended. intros Hnil.
  unfold tokenize in Hread. rewrite Hnil in Hread.
  injection Hread as <-. discriminate Hflow.
Qed.

Lemma parse_cigar_ignores_the_rest_witness :
  tokenize "3M5M" = inr [(3, "M"); (5, "M")]%char
  /\ walk_flow [(3, "M"); (5, "M")]%char 4 0 100 = Return 104
  /\ parse_cigar ("3M5M" ++ "XY7") 4 100 = Returns 104.
Proof.
  assert (Hread : tokenize "3M5M" = inr [(3, "M"); (5, "M")]%char)
    by reflexivity.
  assert (Hflow : walk_flow [(3, "M"); (5, "M")]%char 4 0 100 = Return 104)
    by reflexivity.
  split; [exact Hread | split; [exact Hflow |]].
  apply (parse_cigar_ignores_the_rest "3M5M" _ 4 100 104 Hread Hflow "XY7").
Defined.

(** * [read_file] *)

(** ** The fields of a line *)

Lemma lstrip_split s :
  exists w, s = (w ++ lstrip s)%list /\ Forall (fun c => isspace c = true) w.
Proof.
  induction s as [| c s [w [Hs Hw]]]; [exists []; split; [reflexivity | constructor] |].
  cbn [lstrip]. destruct (isspace c) eqn:E.
  - exists (c :: w). split; [cbn; f_equal; exact Hs | constructor; assumption].
  - exists []. split; [reflexivity | constructor].
Qed.

Lemma rstrip_split s : exists w, s = (rstrip s ++ w)%list.
Proof.
  unfold rstrip. destruct (lstrip_split (rev s)) as [w [Hs _]].
  exists (rev w). rewrite <- rev_app_distr, <- Hs, rev_involutive. reflexivity.
Qed.

Lemma strip_head s c r : strip s = c :: r -> isspace c = false.
Proof.
  unfold strip. intros H. destruct (rstrip_split (lstrip s)) as [w Hw].
  rewrite H in Hw. cbn in Hw. eapply lstrip_head, Hw.
Qed.

Lemma cut_no_sep sep s a b : cut sep s = Some (a, b) -> ~ In sep a.
Proof.
  revert a. induction s as [| c s IH]; intros a; cbn; [discriminate |].
  destruct (Ascii.eqb_spec c sep) as [-> | Hne].
  - intros [= <- <-] [].
  - destruct (cut sep s) as [[a' b'] |]; [| discriminate].
    intros [= <- <-] [Hc | Hin]; [congruence | eapply IH; eauto].
Qed.

Lemma cut_app sep a b : ~ In sep a -> cut sep (a ++ sep :: b) = Some (a, b).
Proof.
  induction a as [| c a IH]; intros Hnot; cbn.
  - rewrite Ascii.eqb_refl. reflexivity.
  - destruct (Ascii.eqb_spec c sep) as [-> | _]; [exfalso; apply Hnot; left; reflexivity |].
    rewrite IH; [reflexivity | intros Hin; apply Hnot; right; exact Hin].
Qed.

(** What the four fields of a line are: the stripped line is the fields
    with one tab between them, and only the last field can hold a tab. *)
Lemma split_line_fields line tr chrname rpos cigar :
  split_line line = Some (tr, chrname, rpos, cigar) ->
  strip (list_ascii_of_string line)
  = (list_ascii_of_string tr ++ "009"%char :: list_ascii_of_string chrname
       ++ "009"%char :: list_ascii_of_string rpos
       ++ "009"%char :: list_ascii_of_string cigar)%list
  /\ ~ In "009"%char (list_ascii_of_string tr)
  /\ ~ In "009"%char (list_ascii_of_string chrname)
  /\ ~ In "009"%char (list_ascii_of_string rpos).
Proof.
  unfold split_line. generalize (strip (list_ascii_of_string line)). intros s.
  cbn [split].
  destruct (cut "009" s) as [[f1 s1] |] eqn:H1; [| discriminate].
  destruct (cut "009" s1) as [[f2 s2] |] eqn:H2; [| discriminate].
  destruct (cut "009" s2) as [[f3 s3] |] eqn:H3; [| discriminate].
  intros [= <- <- <- <-]. rewrite !list_ascii_of_string_of_list_ascii.
  pose proof (cut_no_sep _ _ _ _ H1). pose proof (cut_no_sep _ _ _ _ H2).
  pose proof (cut_no_sep _ _ _ _ H3).
  apply cut_spec in H1, H2, H3. subst. auto.
Qed.

Lemma string_not_empty (s : string) :
  list_ascii_of_string s <> [] -> s <> "".
Proof. intros H ->. apply H. reflexivity. Qed.

(** A line that [read_file] can unpack has a transcript name that is not
    empty and does not start with white space. *)
Lemma split_line_transcript line tr chrname rpos cigar :
  split_line line = Some (tr, chrname, rpos, cigar) ->
  exists c r, list_ascii_of_string tr = c :: r /\ isspace c = false.
Proof.
  intros Hline. destruct (split_line_fields _ _ _ _ _ Hline) as [Hs _].
  destruct (list_ascii_of_string tr) as [| c r] eqn:E.
  - cbn in Hs. apply strip_head in Hs. discriminate Hs.
  - cbn in Hs. apply strip_head in Hs. eauto.
Qed.

(** ** The dictionary *)

Lemma read_lines_keep lines tr : forall d0 d,
  read_lines d0 lines = Some d ->
  (forall l v, In l lines -> read_line l <> Some (tr, v)) ->
  d !! tr = d0 !! tr.
Proof.
  induction lines as [| line lines IH]; intros d0 d Hread Hnone; cbn in Hread.
  - congruence.
  - destruct (read_line line) as [[tr' v'] |] eqn:Hline; [| discriminate].
    rewrite (IH _ _ Hread); [| intros l v Hl; apply Hnone; right; exact Hl].
    apply lookup_insert_ne. intros ->.
    apply (Hnone line v'); [left; reflexivity | exact Hline].
Qed.

Lemma read_lines_origin lines tr v : forall d0 d,
  read_lines d0 lines = Some d -> d !! tr = Some v ->
  d0 !! tr = Some v
  \/ exists line, In line lines /\ read_line line = Some (tr, v).
Proof.
  induction lines as [| line lines IH]; intros d0 d Hread Hlook; cbn in Hread.
  - left. congruence.
  - destruct (read_line line) as [[tr' v'] |] eqn:Hline; [| discriminate].
    destruct (IH _ _ Hread Hlook) as [H0 | [l [Hl Hrl]]].
    + destruct (decide (tr' = tr)) as [-> | Hne].
      * rewrite lookup_insert_eq in H0. injection H0 as ->.
        right. exists line. split; [left; reflexivity | exact Hline].
      * rewrite lookup_insert_ne in H0 by exact Hne. left. exact H0.
    + right. exists l. split; [right; exact Hl | exact Hrl].
Qed.

(** The dictionary of [read_file] holds, for every transcript, the record
    of the last line that names it, and nothing that no line gives. *)
Theorem read_file_lookup lines d :
  read_file lines = Some d ->
  (forall tr v, d !! tr = Some v ->
     exists line, In line lines /\ read_line line = Some (tr, v))
  /\ (forall pre line post tr v,
        lines = (pre ++ line :: post)%list ->
        read_line line = Some (tr, v) ->
        (forall l v', In l post -> read_line l <> Some (tr, v')) ->
        d !! tr = Some v).
Proof.
  intros Hread. split.
  - intros tr v Hlook.
    destruct (read_lines_origin lines tr v ∅ d Hread Hlook) as [H0 | H];
      [rewrite lookup_empty in H0; discriminate | exact H].
  - intros pre line post tr v -> Hline Hlast.
    unfold read_file in Hread. revert Hread. generalize (∅ : gmap string alignment).
    induction pre as [| l pre IH]; intros d0 Hread; cbn in Hread.
    + rewrite Hline in Hread.
      rewrite (read_lines_keep post tr _ d Hread Hlast).
      apply lookup_insert_eq.
    + destruct (read_line l) as [[tr' v'] |]; [| discriminate].
      apply (IH _ Hread).
Qed.

(** [read_file] stores or fails as a whole: it returns a dictionary exactly
    when every line of the file gives a record. *)
Lemma read_lines_is_Some lines : forall d0,
  is_Some (read_lines d0 lines)
  <-> Forall (fun l => is_Some (read_line l)) lines.
Proof.
  induction lines as [| line lines IH]; intros d0; cbn.
  - split; [constructor | eauto].
  - destruct (read_line line) as [[tr v] |] eqn:Hline.
    + rewrite IH. split.
      * intros H. constructor; [rewrite Hline; eauto | exact H].
      * intros H. apply Forall_cons in H as [_ H]. exact H.
    + split; [intros [x Hx]; discriminate |].
      intros H. apply Forall_cons in H as [[x Hx] _]. congruence.
Qed.

(** A blank line anywhere in the reference file, an empty last line
    included, makes [read_file] raise: no dictionary is returned. *)
Theorem read_file_blank_line lines line :
  In line lines -> strip (list_ascii_of_string line) = [] ->
  read_file lines = None.
Proof.
  intros Hin Hblank.
  assert (Hline : read_line line = None).
  { unfold read_line, split_line. rewrite Hblank. reflexivity. }
  destruct (read_file lines) as [d |] eqn:Hread; [| reflexivity].
  assert (Hsome : is_Some (read_file lines)) by (rewrite Hread; eauto).
  unfold read_file in Hsome.
  apply read_lines_is_Some in Hsome. rewrite List.Forall_forall in Hsome.
  destruct (Hsome line Hin) as [x Hx]. congruence.
Qed.

(** * The query file and the output file *)

(** ** Words and numerals *)

Lemma words_spec s : forall cur,
  Forall (fun c => isspace c = false) cur ->
  Forall (fun w => w <> [] /\ Forall (fun c => isspace c = false) w)
    (words cur s).
Proof.
  induction s as [| c s IH]; intros cur Hcur; cbn [words].
  - destruct cur as [| x cur]; [constructor |].
    constructor; [| constructor]. split.
    + intros Hnil. apply (f_equal (@List.length ascii)) in Hnil.
      rewrite length_rev in Hnil. discriminate Hnil.
    + apply Forall_rev. exact Hcur.
  - destruct (isspace c) eqn:E.
    + destruct cur as [| x cur]; [apply IH; constructor |].
      constructor; [| apply IH; constructor]. split.
      * intros Hnil. apply (f_equal (@List.length ascii)) in Hnil.
        rewrite length_rev in Hnil. discriminate Hnil.
      * apply Forall_rev. exact Hcur.
    + apply IH. constructor; assumption.
Qed.

Lemma no_space_no_tab w :
  Forall (fun c => isspace c = false) w -> ~ In "009"%char w.
Proof.
  intros Hall Hin. rewrite List.Forall_forall in Hall.
  specialize (Hall _ Hin). discriminate Hall.
Qed.

(** The transcript name of a query line holds no white space and is not
    empty. *)
Lemma read_query_transcript line tr tpos fields :
  read_query line = Some (tr, tpos, fields) ->
  list_ascii_of_string tr <> []
  /\ Forall (fun c => isspace c = false) (list_ascii_of_string tr).
Proof.
  unfold read_query, split_whitespace.
  pose proof (words_spec (rstrip (list_ascii_of_string line)) []
                ltac:(constructor)) as Hwords.
  destruct (words [] (rstrip (list_ascii_of_string line)))
    as [| w [| w' ws]]; [discriminate .. |].
  destruct (int_str w'); [| discriminate].
  intros [= <- _ _]. rewrite list_ascii_of_string_of_list_ascii.
  apply Forall_cons in Hwords as [Hw _]. exact Hw.
Qed.

Lemma str_int_chars n :
  Forall (fun c => isdigit c = true \/ c = "-"%char) (str_int n)
  /\ exists y d, str_int n = (y ++ [d])%list /\ isdigit d = true.
Proof.
  assert (Hnum : forall m, 0 <= m ->
            Forall (fun c => isdigit c = true \/ c = "-"%char)
              (numeral (Z.to_nat m) m)
            /\ exists y d, numeral (Z.to_nat m) m = (y ++ [d])%list
                           /\ isdigit d = true).
  { intros m Hm. destruct (numeral_digits m Hm) as [Hne [Hall _]].
    split; [eapply List.Forall_impl; [| exact Hall]; cbn; auto |].
    destruct (exists_last Hne) as [y [d Hy]]. exists y, d.
    split; [exact Hy |]. rewrite Hy in Hall.
    apply Forall_app in Hall as [_ Hd]. apply Forall_cons in Hd as [Hd _].
    exact Hd. }
  unfold str_int. destruct (Z.ltb_spec n 0) as [Hneg | Hpos].
  - destruct (Hnum (- n) ltac:(lia)) as [Hall [y [d [Hy Hd]]]]. split.
    + constructor; [right; reflexivity | exact Hall].
    + exists ("-"%char :: y), d. rewrite Hy. split; [reflexivity | exact Hd].
  - apply Hnum, Hpos.
Qed.

Lemma str_int_no_tab n : ~ In "009"%char (str_int n).
Proof.
  intros Hin. destruct (str_int_chars n) as [Hall _].
  rewrite List.Forall_forall in Hall.
  destruct (Hall _ Hin) as [H | H]; discriminate H.
Qed.

Lemma rstrip_newline x d :
  isspace d = false -> rstrip ((x ++ [d]) ++ ["010"%char]) = (x ++ [d])%list.
Proof.
  intros Hd. unfold rstrip. rewrite !rev_app_distr.
  change (rev ["010"%char]) with ["010"%char]. change (rev [d]) with [d].
  cbn [app lstrip]. change (isspace "010") with true. cbn iota.
  rewrite Hd. change (d :: rev x) with ([d] ++ rev x)%list.
  rewrite rev_app_distr, rev_involutive. reflexivity.
Qed.

(** ** A written line read back *)

Lemma split_line_write_line_eq tr tpos chrname mapped_pos c r :
  list_ascii_of_string tr = c :: r -> isspace c = false ->
  ~ In "009"%char (list_ascii_of_string tr) ->
  ~ In "009"%char (list_ascii_of_string chrname) ->
  split_line (write_line (tr, tpos, chrname, mapped_pos))
  = Some (tr, string_of_list_ascii (str_int tpos), chrname,
          string_of_list_ascii (str_int mapped_pos)).
Proof.
  intros Htr Hc Htab Hchr. unfold split_line, write_line.
  rewrite list_ascii_of_string_of_list_ascii. cbn [join app].
  destruct (str_int_chars mapped_pos) as [_ [y [d [Hy Hd]]]].
  apply isdigit_not_space in Hd as [Hd _].
  set (fields := (list_ascii_of_string tr ++ "009"%char :: str_int tpos
                    ++ "009"%char :: list_ascii_of_string chrname
                    ++ "009"%char :: str_int mapped_pos)%list).
  assert (Hstrip : strip (fields ++ ["010"%char]) = fields).
  { unfold strip.
    assert (Hl : lstrip (fields ++ ["010"%char]) = (fields ++ ["010"%char])%list).
    { unfold fields. rewrite Htr. cbn. rewrite Hc. reflexivity. }
    rewrite Hl. unfold fields. rewrite Hy.
    rewrite !app_comm_cons, !app_assoc. rewrite rstrip_newline by exact Hd.
    reflexivity. }
  rewrite Hstrip. unfold fields. cbn [split].
  rewrite (cut_app _ _ _ Htab), (cut_app _ _ _ (str_int_no_tab tpos)),
    (cut_app _ _ _ Hchr).
  rewrite !string_of_list_ascii_of_string. reflexivity.
Qed.

(** * The whole run *)

Lemma fold_keys_is_Some (l : list query) (q : query) :
  forall n (m : gmap query nat),
    q ∈ l \/ is_Some (m !! q) ->
    is_Some (fold_left (fun keys ie => <[snd ie := fst ie]> keys)
               (combine (seq n (List.length l)) l) m !! q).
Proof.
  induction l as [| x l IH]; intros n m Hq; cbn.
  - destruct Hq as [Hin | Hm]; [inversion Hin | exact Hm].
  - apply IH. destruct (decide (x = q)) as [-> | Hne].
    + right. cbn. rewrite lookup_insert_eq. eauto.
    + destruct Hq as [Hin | Hm].
      * apply elem_of_cons in Hin as [-> | Hin]; [contradiction | left; exact Hin].
      * right. cbn. rewrite lookup_insert_ne by exact Hne. exact Hm.
Qed.

Lemma restore_is_Some tr_list queries :
  Forall (fun x => row_key x ∈ tr_list) queries ->
  is_Some (restore tr_list queries).
Proof.
  intros Hall. unfold restore.
  destruct queries as [| x1 [| x2 queries]]; [eauto .. |].
  assert (Hkeyed : is_Some (mapM (fun x => option_map (fun k => (k, x))
                                    (make_keys tr_list !! row_key x))
                              (x1 :: x2 :: queries))).
  { apply mapM_is_Some. eapply List.Forall_impl; [| exact Hall].
    intros x Hx. cbn.
    destruct (fold_keys_is_Some tr_list (row_key x) 0%nat ∅ (or_introl Hx))
      as [k Hk].
    unfold make_keys, enumerate. rewrite Hk. cbn. eauto. }
  destruct Hkeyed as [keyed ->]. eauto.
Qed.

(** The mapping and the restoring together write rows exactly when every
    query can be mapped; repeated lines do not stop them. *)
Lemma sorted_queries_is_Some d tr_list :
  is_Some (sorted_queries d tr_list)
  <-> Forall (fun q => is_Some (map_query d q)) tr_list.
Proof.
  unfold sorted_queries.
  match goal with
  | |- context [mapping_loop d ?o] => set (order := o)
  end.
  assert (Hperm : Permutation order tr_list) by apply sorted_Permutation.
  destruct (mapping_loop d order) as [queries |] eqn:Hloop.
  - apply mapping_loop_Some in Hloop as [-> Hall].
    rewrite Hperm in Hall. split; [intros _; exact Hall | intros _].
    apply restore_is_Some. rewrite List.Forall_forall.
    intros x Hx. apply in_map_iff in Hx as [q [<- Hq]].
    assert (Hin : In q tr_list).
    { eapply Permutation_in; [exact Hperm | exact Hq]. }
    rewrite List.Forall_forall in Hall. destruct (Hall q Hin) as [x Hx].
    unfold row_of. rewrite Hx. cbn. rewrite (map_query_key d q x Hx).
    apply list_elem_of_In, Hin.
  - split; [intros [x Hx]; discriminate |].
    intros Hall. rewrite <- Hperm in Hall.
    rewrite (mapping_loop_total d order Hall) in Hloop. discriminate.
Qed.

Lemma sorted_queries_length d tr_list rows :
  sorted_queries d tr_list = Some rows ->
  List.length rows = List.length tr_list.
Proof.
  unfold sorted_queries.
  destruct (mapping_loop d _) as [queries |] eqn:Hloop; [| discriminate].
  intros Hrestore. apply restore_Permutation in Hrestore.
  apply mapping_loop_Some in Hloop as [-> _].
  rewrite (Permutation_length Hrestore), length_map. apply sorted_length.
Qed.

Lemma main_Some ref_lines query_lines out :
  main ref_lines query_lines = Some out ->
  exists d tr_list rows,
    read_file ref_lines = Some d
    /\ read_queries query_lines = Some tr_list
    /\ sorted_queries d tr_list = Some rows
    /\ out = map write_line rows.
Proof.
  unfold main. destruct ref_lines as [| rl ref_lines]; [discriminate |].
  destruct query_lines as [| ql query_lines]; [discriminate |].
  destruct (read_file (rl :: ref_lines)) as [d |] eqn:Hd; [| discriminate].
  destruct (read_queries (ql :: query_lines)) as [tr_list |] eqn:Hq;
    [| discriminate].
  destruct (sorted_queries d tr_list) as [rows |] eqn:Hrows; [| discriminate].
  intros [= <-]. exists d, tr_list, rows. auto.
Qed.

Lemma read_queries_Forall2 query_lines tr_list :
  read_queries query_lines = Some tr_list ->
  Forall2 (fun line q => read_query line = Some (fst q, snd q, []))
    query_lines tr_list.
Proof.
  unfold read_queries.
  destruct (mapM read_query query_lines) as [elements |] eqn:Hel;
    [| discriminate].
  intros Hun. apply mapM_Some_1 in Hel. apply mapM_Some_1 in Hun.
  revert tr_list Hun. induction Hel as [| line e lines elements He _ IH];
    intros tr_list Hun; inversion Hun as [| e' q els qs Hq Hrest]; subst;
    constructor.
  - destruct e as [[tr tpos] [| f fields]]; [| discriminate].
    injection Hq as <-. exact He.
  - apply IH, Hrest.
Qed.

Lemma sorted_queries_rows d tr_list rows :
  sorted_queries d tr_list = Some rows ->
  Forall (fun x => exists q, In q tr_list /\ map_query d q = Some x) rows.
Proof.
  unfold sorted_queries.
  destruct (mapping_loop d _) as [queries |] eqn:Hloop; [| discriminate].
  intros Hrestore. apply restore_Permutation in Hrestore.
  apply mapping_loop_Some in Hloop as [-> Hall].
  rewrite List.Forall_forall in *. intros x Hx.
  assert (Hin : In x (map (row_of d) (sorted (fun i : query => (fst i, snd i))
                                        tuple_lt tr_list))).
  { eapply Permutation_in; [exact Hrestore | exact Hx]. }
  apply in_map_iff in Hin as [q [<- Hq]].
  destruct (Hall q Hq) as [x' Hx']. exists q. split.
  - eapply Permutation_in; [| exact Hq].
    apply (sorted_Permutation (fun i : query => (fst i, snd i)) tuple_lt).
  - unfold row_of. rewrite Hx'. reflexivity.
Qed.

(** What a normal run has written: as many lines as the query file has, and
    every line is the mapping of one of its queries.  The line splits at its
    tabs into the transcript, the query position, the chromosome that the
    reference file gives for the transcript, and the position [parse_cigar]
    returned for that record; the two positions read back as the numbers
    they were. *)
Theorem main_lines ref_lines query_lines out :
  main ref_lines query_lines = Some out ->
  List.length out = List.length query_lines
  /\ forall line, In line out ->
       exists d tr_list tr tpos chrname rpos cigar mapped_pos,
         read_file ref_lines = Some d
         /\ read_queries query_lines = Some tr_list
         /\ In (tr, tpos) tr_list
         /\ d !! tr = Some (chrname, rpos, cigar)
         /\ parse_cigar cigar tpos rpos = Returns mapped_pos
         /\ split_line line
            = Some (tr, string_of_list_ascii (str_int tpos), chrname,
                    string_of_list_ascii (str_int mapped_pos))
         /\ int_str (str_int tpos) = Some tpos
         /\ int_str (str_int mapped_pos) = Some mapped_pos.
Proof.
  intros Hmain.
  destruct (main_Some _ _ _ Hmain) as [d [tr_list [rows [Hd [Hq [Hrows ->]]]]]].
  pose proof (read_queries_Forall2 _ _ Hq) as Hlines.
  split.
  - rewrite length_map.
    rewrite (sorted_queries_length d tr_list rows Hrows).
    symmetry. eapply Forall2_length, Hlines.
  - intros line Hline. apply in_map_iff in Hline as [x [<- Hx]].
    pose proof (sorted_queries_rows d tr_list rows Hrows) as Hall.
    rewrite List.Forall_forall in Hall.
    destruct (Hall x Hx) as [[tr tpos] [Hin Hmap]].
    unfold map_query in Hmap.
    destruct (d !! tr) as [[[chrname rpos] cigar] |] eqn:Hlook;
      [| discriminate].
    destruct (parse_cigar cigar tpos rpos) as [mapped_pos |] eqn:Hrun;
      [| discriminate].
    injection Hmap as <-.
    exists d, tr_list, tr, tpos, chrname, rpos, cigar, mapped_pos.
    repeat (split; [first [assumption | reflexivity | apply int_str_str_int] |]).
    split; [| split; apply int_str_str_int].
    (* the transcript comes from a query line, the chromosome from a
       reference line *)
    apply list_elem_of_In, list_elem_of_lookup in Hin as [i Hi].
    destruct (Forall2_lookup_r _ _ _ _ _ Hlines Hi) as [qline [_ Hread]].
    destruct (read_query_transcript _ _ _ _ Hread) as [Hne Hns].
    cbn [fst snd] in Hne, Hns.
    destruct (list_ascii_of_string tr) as [| c r] eqn:Htr; [contradiction |].
    pose proof Hns as Hc. apply Forall_cons in Hc as [Hc _].
    destruct (read_lines_origin ref_lines tr _ ∅ d Hd Hlook)
      as [H0 | [rline [_ Hrline]]];
      [rewrite lookup_empty in H0; discriminate |].
    unfold read_line in Hrline.
    destruct (split_line rline) as [[[[tr' chr'] rp'] cg'] |] eqn:Hsplit;
      [| discriminate].
    destruct (int_str (list_ascii_of_string rp')); [| discriminate].
    injection Hrline as -> -> _ ->.
    destruct (split_line_fields _ _ _ _ _ Hsplit) as [_ [_ [Hchr _]]].
    apply (split_line_write_line_eq tr tpos chrname mapped_pos c r Htr Hc);
      [rewrite Htr; apply no_space_no_tab; exact Hns | exact Hchr].
Qed.

Lemma main_eq ref_lines query_lines d tr_list :
  ref_lines <> [] -> query_lines <> [] ->
  read_file ref_lines = Some d ->
  read_queries query_lines = Some tr_list ->
  main ref_lines query_lines
  = option_map (map write_line) (sorted_queries d tr_list).
Proof.
  intros Hr Hq Hd Htr. unfold main.
  destruct ref_lines as [| rl ref_lines]; [contradiction |].
  destruct query_lines as [| ql query_lines]; [contradiction |].
  rewrite Hd, Htr. destruct (sorted_queries d tr_list); reflexivity.
Qed.

(** All or nothing: once both files are read, the run writes its output
    exactly when every query can be mapped.  One query whose transcript the
    reference file lacks, or on whose CIGAR [parse_cigar] raises, and no
    line is written for any query. *)
Theorem main_writes_iff ref_lines query_lines d tr_list :
  ref_lines <> [] -> query_lines <> [] ->
  read_file ref_lines = Some d ->
  read_queries query_lines = Some tr_list ->
  is_Some (main ref_lines query_lines)
  <-> forall tr tpos, In (tr, tpos) tr_list ->
        exists chrname rpos cigar mapped_pos,
          d !! tr = Some (chrname, rpos, cigar)
          /\ parse_cigar cigar tpos rpos = Returns mapped_pos.
Proof.
  intros Hr Hq Hd Htr. rewrite (main_eq _ _ d tr_list Hr Hq Hd Htr).
  assert (Hiff : is_Some (option_map (map write_line) (sorted_queries d tr_list))
                 <-> is_Some (sorted_queries d tr_list)).
  { destruct (sorted_queries d tr_list); cbn;
      (split; [intros [x Hx]; first [discriminate | eauto]
              | intros [x Hx]; first [discriminate | eauto]]). }
  rewrite Hiff, sorted_queries_is_Some, List.Forall_forall. split.
  - intros Hall tr tpos Hin. destruct (Hall _ Hin) as [x Hx].
    unfold map_query in Hx.
    destruct (d !! tr) as [[[chrname rpos] cigar] |]; [| discriminate].
    destruct (parse_cigar cigar tpos rpos) as [mapped_pos |] eqn:Hrun;
      [| discriminate].
    eauto 10.
  - intros Hall [tr tpos] Hin.
    destruct (Hall tr tpos Hin) as [chrname [rpos [cigar [m [Hlook Hrun]]]]].
    unfold map_query. rewrite Hlook, Hrun. eauto.
Qed.


(** ** Blank lines, and what the dictionary holds *)

Lemma lstrip_blank s :
  Forall (fun c => isspace c = true) s -> lstrip s = [].
Proof.
  induction 1 as [| c s Hc _ IH]; [reflexivity |]. cbn. rewrite Hc. exact IH.
Qed.

Lemma strip_blank s :
  Forall (fun c => isspace c = true) s -> strip s = [].
Proof. intros H. unfold strip. rewrite (lstrip_blank s H). reflexivity. Qed.

Lemma rstrip_blank s :
  Forall (fun c => isspace c = true) s -> rstrip s = [].
Proof.
  intros H. unfold rstrip. rewrite lstrip_blank; [reflexivity |].
  apply Forall_rev. exact H.
Qed.

Lemma read_queries_is_Some query_lines tr_list line :
  read_queries query_lines = Some tr_list -> In line query_lines ->
  is_Some (read_query line).
Proof.
  unfold read_queries.
  destruct (mapM read_query query_lines) as [elements |] eqn:Hel;
    [| discriminate].
  intros _ Hin.
  assert (Hsome : is_Some (mapM read_query query_lines))
    by (rewrite Hel; eauto).
  apply mapM_is_Some in Hsome. rewrite List.Forall_forall in Hsome.
  apply (Hsome line Hin).
Qed.

(** A line of white space only, in either file, stops the run before
    anything is written: an empty line at the end of a file is enough. *)
Theorem main_blank_line ref_lines query_lines line :
  In line ref_lines \/ In line query_lines ->
  Forall (fun c => isspace c = true) (list_ascii_of_string line) ->
  main ref_lines query_lines = None.
Proof.
  intros Hin Hblank.
  destruct (main ref_lines query_lines) as [out |] eqn:Hmain; [| reflexivity].
  destruct (main_Some _ _ _ Hmain) as [d [tr_list [rows [Hd [Hq _]]]]].
  destruct Hin as [Hin | Hin].
  - rewrite (read_file_blank_line ref_lines line Hin (strip_blank _ Hblank))
      in Hd. discriminate.
  - destruct (read_queries_is_Some _ _ _ Hq Hin) as [e He].
    unfold read_query in He. rewrite (rstrip_blank _ Hblank) in He.
    discriminate.
Qed.

Lemma main_blank_line_witness :
  (In (String "010" "") ["A 1"; String "010" ""]%string
   \/ In (String "010" "") ["A 1"; String "010" ""]%string)
  /\ Forall (fun c => isspace c = true)
       (list_ascii_of_string (String "010" ""))
  /\ main ["A 1"; String "010" ""]%string ["A 1"; String "010" ""]%string
     = None.
Proof.
  assert (Hin : In (String "010" "") ["A 1"; String "010" ""]%string
                \/ In (String "010" "") ["A 1"; String "010" ""]%string)
    by (left; right; left; reflexivity).
  assert (Hblank : Forall (fun c => isspace c = true)
                     (list_ascii_of_string (String "010" "")))
    by (repeat constructor).
  split; [exact Hin | split; [exact Hblank |]].
  apply (main_blank_line _ _ _ Hin Hblank).
Defined.

(** Every record in the dictionary of [read_file] has a transcript name
    and a CIGAR string that are not empty, and neither the name nor the
    chromosome holds a tab: [parse_cigar] is never given the empty string
    by a run. *)
Theorem read_file_records lines d tr chrname rpos cigar :
  read_file lines = Some d ->
  d !! tr = Some (chrname, rpos, cigar) ->
  tr <> "" /\ cigar <> ""
  /\ ~ In "009"%char (list_ascii_of_string tr)
  /\ ~ In "009"%char (list_ascii_of_string chrname).
Proof.
  intros Hread Hlook.
  destruct (read_lines_origin lines tr _ ∅ d Hread Hlook)
    as [H0 | [line [_ Hline]]]; [rewrite lookup_empty in H0; discriminate |].
  unfold read_line in Hline.
  destruct (split_line line) as [[[[tr' chr'] rp'] cg'] |] eqn:Hsplit;
    [| discriminate].
  destruct (int_str (list_ascii_of_string rp')); [| discriminate].
  injection Hline as -> -> _ ->.
  destruct (split_line_fields _ _ _ _ _ Hsplit) as [Hs [Htr [Hchr _]]].
  destruct (split_line_transcript _ _ _ _ _ Hsplit) as [c [r [Hc _]]].
  split; [apply string_not_empty; rewrite Hc; discriminate |].
  split; [| split; assumption].
  apply string_not_empty. intros Hnil. rewrite Hnil in Hs.
  rewrite !app_comm_cons, !app_assoc in Hs.
  apply strip_last in Hs. discriminate Hs.
Qed.

Lemma read_file_records_witness :
  read_file ["A" ++ String "009" ("chr1" ++ String "009" ("100"
               ++ String "009" "3M"))]%string
  = Some (<["A" := ("chr1", 100, "3M")]> ∅)
  /\ (<["A" := ("chr1", 100, "3M")]> ∅ : gmap string alignment) !! "A"
     = Some ("chr1", 100, "3M")%string
  /\ "A"%string <> ""%string /\ "3M"%string <> ""%string
  /\ ~ In "009"%char (list_ascii_of_string "A")
  /\ ~ In "009"%char (list_ascii_of_string "chr1").
Proof.
  assert (Hread : read_file ["A" ++ String "009" ("chr1" ++ String "009" ("100"
                               ++ String "009" "3M"))]%string
                  = Some (<["A" := ("chr1", 100, "3M")]> ∅))
    by reflexivity.
  assert (Hlook : (<["A" := ("chr1", 100, "3M")]> ∅ : gmap string alignment)
                    !! "A" = Some ("chr1", 100, "3M")%string)
    by (vm_compute; reflexivity).
  split; [exact Hread | split; [exact Hlook |]].
  apply (read_file_records _ _ _ _ _ _ Hread Hlook).
Defined.

Lemma read_file_lookup_witness :
  read_file ["A" ++ String "009" ("chr1" ++ String "009" ("100"
               ++ String "009" "3M"));
             "A" ++ String "009" ("chr2" ++ String "009" ("7"
               ++ String "009" "5M"))]%string
  = Some (<["A" := ("chr2", 7, "5M")]> ∅)
  /\ (<["A" := ("chr2", 7, "5M")]> ∅ : gmap string alignment) !! "A"
     = Some ("chr2", 7, "5M")%string.
Proof.
  assert (Hread : read_file ["A" ++ String "009" ("chr1" ++ String "009" ("100"
                               ++ String "009" "3M"));
                             "A" ++ String "009" ("chr2" ++ String "009" ("7"
                               ++ String "009" "5M"))]%string
                  = Some (<["A" := ("chr2", 7, "5M")]> ∅))
    by (vm_compute; reflexivity).
  split; [exact Hread |].
  destruct (read_file_lookup _ _ Hread) as [_ Hlast].
  apply (Hlast ["A" ++ String "009" ("chr1" ++ String "009" ("100"
                  ++ String "009" "3M"))]%string
           ("A" ++ String "009" ("chr2" ++ String "009" ("7"
              ++ String "009" "5M")))%string []);
    [reflexivity | reflexivity | intros l v' []].
Defined.

(** ** Instances *)

Lemma ex_read_file : read_file ref_ex = Some d_dup.
Proof. vm_compute. reflexivity. Qed.

Lemma ex_read_queries : read_queries query_ex = Some [("B", 2); ("A", 1)].
Proof. vm_compute. reflexivity. Qed.

Lemma ex_main : main ref_ex query_ex = Some out_ex.
Proof. vm_compute. reflexivity. Qed.

Lemma main_lines_witness :
  main ref_ex query_ex = Some out_ex
  /\ List.length out_ex = List.length query_ex
  /\ forall line, In line out_ex ->
       exists d tr_list tr tpos chrname rpos cigar mapped_pos,
         read_file ref_ex = Some d
         /\ read_queries query_ex = Some tr_list
         /\ In (tr, tpos) tr_list
         /\ d !! tr = Some (chrname, rpos, cigar)
         /\ parse_cigar cigar tpos rpos = Returns mapped_pos
         /\ split_line line
            = Some (tr, string_of_list_ascii (str_int tpos), chrname,
                    string_of_list_ascii (str_int mapped_pos))
         /\ int_str (str_int tpos) = Some tpos
         /\ int_str (str_int mapped_pos) = Some mapped_pos.
Proof.
  split; [exact ex_main | apply (main_lines ref_ex query_ex out_ex ex_main)].
Defined.

Lemma main_writes_iff_witness :
  ref_ex <> [] /\ query_ex <> []
  /\ read_file ref_ex = Some d_dup
  /\ read_queries query_ex = Some [("B", 2); ("A", 1)]
  /\ (is_Some (main ref_ex query_ex)
      <-> forall tr tpos, In (tr, tpos) [("B", 2); ("A", 1)] ->
            exists chrname rpos cigar mapped_pos,
              d_dup !! tr = Some (chrname, rpos, cigar)
              /\ parse_cigar cigar tpos rpos = Returns mapped_pos).
Proof.
  assert (Hr : ref_ex <> []) by discriminate.
  assert (Hq : query_ex <> []) by discriminate.
  split; [exact Hr | split; [exact Hq |]].
  split; [exact ex_read_file | split; [exact ex_read_queries |]].
  apply (main_writes_iff ref_ex query_ex d_dup _ Hr Hq
           ex_read_file ex_read_queries).
Defined.


(** * [check_path] *)

Section CheckPath.
Variables (isdir mkdir : string -> bool).

(** The path [check_path] returns ends with a slash: it is the path given,
    with one slash added exactly when the path did not end with one; and the
    directory exists or could be made.  Given the returned path again, with
    the directory there, it returns it unchanged. *)
Theorem check_path_slash path p :
  check_path isdir mkdir path = Some p ->
  (isdir path = true \/ mkdir path = true)
  /\ (exists s, list_ascii_of_string p = (s ++ ["/"%char])%list)
  /\ (p = path
      \/ (p = (path ++ "/")%string
          /\ forall s, list_ascii_of_string path <> (s ++ ["/"%char])%list))
  /\ (isdir p = true -> check_path isdir mkdir p = Some p).
Proof.
  unfold check_path.
  destruct (negb (isdir path) && negb (mkdir path)) eqn:Hdir; [discriminate |].
  assert (Hok : isdir path = true \/ mkdir path = true).
  { destruct (isdir path), (mkdir path); auto; discriminate. }
  destruct (rev (list_ascii_of_string path)) as [| c t] eqn:Hrev;
    [discriminate |].
  apply (f_equal (@rev ascii)) in Hrev. rewrite rev_involutive in Hrev.
  cbn in Hrev.
  assert (Hend : forall q s, list_ascii_of_string q = (s ++ ["/"%char])%list ->
                   isdir q = true ->
                   (if negb (isdir q) && negb (mkdir q) then None
                    else match rev (list_ascii_of_string q) with
                         | [] => None
                         | c :: _ => if Ascii.eqb c "/" then Some q
                                     else Some (q ++ "/")%string
                         end) = Some q).
  { intros q s Hq Hdq. rewrite Hdq, Hq, rev_app_distr. reflexivity. }
  destruct (Ascii.eqb_spec c "/") as [-> | Hne]; intros [= <-].
  - split; [exact Hok |]. split; [eauto |]. split; [left; reflexivity |].
    apply (Hend _ _ Hrev).
  - assert (Hp : list_ascii_of_string (path ++ "/")
                 = (list_ascii_of_string path ++ ["/"%char])%list)
      by apply list_ascii_of_string_append.
    split; [exact Hok |]. split; [eauto |]. split.
    + right. split; [reflexivity |]. intros s Hs. rewrite Hs in Hrev.
      apply app_inj_tail in Hrev as [_ Hc]. congruence.
    + apply (Hend _ _ Hp).
Qed.
End CheckPath.

Lemma check_path_slash_witness :
  check_path (fun _ => true) (fun _ => false) "out" = Some "out/"%string
  /\ ((fun _ : string => true) "out"%string = true
      \/ (fun _ : string => false) "out"%string = true)
  /\ (exists s, list_ascii_of_string "out/" = (s ++ ["/"%char])%list)
  /\ ("out/"%string = "out"%string
      \/ ("out/"%string = ("out" ++ "/")%string
          /\ forall s, list_ascii_of_string "out" <> (s ++ ["/"%char])%list))
  /\ ((fun _ : string => true) "out/"%string = true ->
      check_path (fun _ => true) (fun _ => false) "out/" = Some "out/"%string).
Proof.
  assert (H : check_path (fun _ => true) (fun _ => false) "out"
              = Some "out/"%string) by reflexivity.
  split; [exact H |].
  apply (check_path_slash (fun _ => true) (fun _ => false) "out" "out/" H).
Defined.

(** * Examples *)

Example tokenize_ex :
  tokenize "10M2I5M" = inr [(10, "M"); (2, "I"); (5, "M")]%char.
Proof. reflexivity. Qed.

Example groupby_ex :
  groupby isdigit (list_ascii_of_string "10M2I")
  = [(true, ["1"; "0"]); (false, ["M"]); (true, ["2"]); (false, ["I"])]%char.
Proof. reflexivity. Qed.

Example parse_cigar_boundary : parse_cigar "4M" 4 100 = Returns 104.
Proof. reflexivity. Qed.

Example parse_cigar_insertion_skip : parse_cigar "3M2I3M" 3 100 = Returns 103.
Proof. reflexivity. Qed.

Example parse_cigar_deletion_inside : parse_cigar "3M2D3M" 4 100 = Returns 106.
Proof. reflexivity. Qed.

Example ref_trace_ex :
  ref_trace [(3, "M"); (2, "D"); (3, "M")]%char 4 0 100 = [103; 105; 106].
Proof. reflexivity. Qed.

Example cigar_of_ex :
  string_of_list_ascii (cigar_of [(12, "M"); (0, "D"); (305, "I")]%char)
  = "12M0D305I"%string.
Proof. reflexivity. Qed.

Example split_line_empty_cigar :
  split_line ("tr1" ++ String "009" ("chr1" ++ String "009" ("100" ++
                String "009" (String "010" ""))))
  = None.
Proof. reflexivity. Qed.

Example sorted_queries_ex :
  sorted_queries d_dup [("B", 2); ("A", 1); ("A", 0)]
  = Some [("B", 2, "chr2", 9); ("A", 1, "chr1", 101); ("A", 0, "chr1", 100)].
Proof. vm_compute. reflexivity. Qed.

Example sorted_queries_unknown_transcript :
  sorted_queries d_dup [("B", 2); ("C", 1)] = None.
Proof. vm_compute. reflexivity. Qed.

Example int_str_ex :
  map (fun s => int_str (list_ascii_of_string s))
    [" 12 "; "+7"; "-0"; "1_000"; "1__0"; "_1"; "1_"; "- 1"; ""; "007"; "1 2"]%string
  = [Some 12; Some 7; Some 0; Some 1000; None; None; None; None; None; Some 7; None].
Proof. reflexivity. Qed.

Example split_whitespace_ex :
  map string_of_list_ascii (split_whitespace (list_ascii_of_string "  tr1   12 x "))
  = ["tr1"; "12"; "x"]%string.
Proof. reflexivity. Qed.

Example main_ex :
  main [("A" ++ String "009" ("chr1" ++ String "009" ("100" ++ String "009" ("3M2D3M" ++ String "010" ""))))]
       ["A 4" ++ String "010" ""; "A 0"]%string
  = Some ["A" ++ String "009" ("4" ++ String "009" ("chr1" ++ String "009" ("106" ++ String "010" "")));
          "A" ++ String "009" ("0" ++ String "009" ("chr1" ++ String "009" ("100" ++ String "010" "")))]%string.
Proof. vm_compute. reflexivity. Qed.
